(** * SimpleVector: a shallow embedding of [simple_vector.h]

    The class template [SimpleVector<Type>] is embedded as a record holding
    the owned block, the logical size and the stored capacity, and every
    constructor, member function and free comparison operator is a Rocq
    function that follows the C++ body statement by statement.

    Modelling conventions.
    - [size_t] values are natural numbers.  Every capacity the class stores
      is a number of array slots that was requested from [new Type[n]];
      an array object has at most [PTRDIFF_MAX] bytes, so [capacity_ * 2]
      and [size_ + 1] stay below [2^64] and never wrap on such a value.
    - [Type] is a value type: [std::move] of an element leaves the source
      element as it was (as for [int]); [Type{}] is [Type_default].
    - A parameter taken by reference ([PushBack]) is a [reference]: an
      object outside the vector's block or a slot of that block; it is
      read where the body reads it, and a slot of a block that has been
      released by then cannot be read.  A parameter taken by value
      ([Insert]) is the value.
    - [ArrayPtr<Type>] owns its block exclusively (it cannot be copied), so
      a block is represented by its contents, a [list Type]; the null
      pointer and an empty block are both the empty list.
    - An iterator is the offset of the pointer from [items_.Get()].
    - The asserts are compiled in.  A failed [assert], an access outside
      the owned block and a thrown [std::out_of_range] are the three ways
      a call does not complete. *)

From stdpp Require Import base numbers list option functions.

Set Default Proof Using "Type".

(** ** Outcomes of a call *)

Inductive failure : Set :=
  | IndexOutOfRange     (* throw std::out_of_range *)
  | ContractViolation   (* a failed assert *)
  | OutOfBuffer.        (* read or write outside the owned block, or in a released one *)

Inductive result (A : Type) : Type :=
  | Ok (a : A)
  | Fail (f : failure).
Arguments Ok {A} a.
Arguments Fail {A} f.

#[global] Instance result_ret : MRet result := λ A a, Ok a.
#[global] Instance result_bind : MBind result := λ A B k r,
  match r with
  | Ok a => k a
  | Fail f => Fail f
  end.

#[global] Instance result_fmap : FMap result := λ A B g r,
  match r with
  | Ok a => Ok (g a)
  | Fail f => Fail f
  end.

Definition is_ok {A} (r : result A) : Prop := ∃ a, r = Ok a.

(** [assert(c)] *)
Definition assert (c : bool) : result unit :=
  if c then Ok () else Fail ContractViolation.

(** ** The element type's interface *)

(** [Type{}] *)
Class DefaultValue (T : Type) := Type_default : T.
(** [operator==] and [operator<] of [Type] *)
Class EqualityComparable (T : Type) := elem_eq : T → T → bool.
Class LessThanComparable (T : Type) := elem_lt : T → T → bool.

#[global] Instance Z_default : DefaultValue Z := 0%Z.
#[global] Instance Z_eq : EqualityComparable Z := Z.eqb.
#[global] Instance Z_lt : LessThanComparable Z := Z.ltb.

(** ** ArrayPtr *)

Module ArrayPtr.
Section array_ptr.
Context {T : Type} `{DefaultValue T}.

(** Modelled from the spec: [array_ptr.h] is not among the sources.  The
    spec's RawBuffer allocates [n] default-valued elements on
    construction, and [n = 0] means no allocation (the null state). *)
Definition make (n : nat) : list T := replicate n Type_default.

(** Modelled from the spec: the default-constructed, null [ArrayPtr]. *)
Definition null : list T := [].

(** Modelled from the spec: raw indexed access, no bounds checking; the
    access is a failure of the call when it leaves the owned block. *)
Definition get (a : list T) (i : nat) : result T :=
  match a !! i with
  | Some x => Ok x
  | None => Fail OutOfBuffer
  end.

(** Modelled from the spec: assignment through the raw indexed access. *)
Definition set (a : list T) (i : nat) (x : T) : result (list T) :=
  match a !! i with
  | Some _ => Ok (<[i:=x]> a)
  | None => Fail OutOfBuffer
  end.

(** Modelled from the spec: the ownership swap exchanges the two storage
    handles. *)
Definition swap (a b : list T) : list T * list T := (b, a).
End array_ptr.
End ArrayPtr.

(** ** The algorithms of [<algorithm>] the class calls

    Each one is the loop of the standard's reference implementation, run on
    offsets into a block; [n] is the distance [last - first]. *)

Section algorithms.
Context {T : Type}.

(** [for (; first != last; ++first) *first = value;] *)
Fixpoint fill_loop (buf : list T) (first n : nat) (value : T) {struct n}
  : result (list T) :=
  match n with
  | 0 => Ok buf
  | S n' => buf' ← ArrayPtr.set buf first value; fill_loop buf' (S first) n' value
  end.

Definition std_fill (buf : list T) (first last : nat) (value : T) : result (list T) :=
  fill_loop buf first (last - first) value.

(** [std::copy] and [std::move] from one block into another one:
    [for (; first != last; ++first, ++d_first) *d_first = *first;] *)
Fixpoint copy_loop (src : list T) (first n : nat) (dst : list T) (d_first : nat)
    {struct n} : result (list T) :=
  match n with
  | 0 => Ok dst
  | S n' =>
      x ← ArrayPtr.get src first;
      dst' ← ArrayPtr.set dst d_first x;
      copy_loop src (S first) n' dst' (S d_first)
  end.

Definition std_copy (src : list T) (first last : nat) (dst : list T) (d_first : nat)
  : result (list T) :=
  copy_loop src first (last - first) dst d_first.

(** [std::move] with source and destination in the same block (the loop
    reads the block as the earlier iterations left it). *)
Fixpoint move_loop (buf : list T) (first n d_first : nat) {struct n}
  : result (list T) :=
  match n with
  | 0 => Ok buf
  | S n' =>
      x ← ArrayPtr.get buf first;
      buf' ← ArrayPtr.set buf d_first x;
      move_loop buf' (S first) n' (S d_first)
  end.

Definition std_move_within (buf : list T) (first last d_first : nat) : result (list T) :=
  move_loop buf first (last - first) d_first.

(** [std::move_backward] in one block:
    [while (first != last) { --d_last; --last; *d_last = std::move( *last ); }] *)
Fixpoint move_backward_loop (buf : list T) (last n d_last : nat) {struct n}
  : result (list T) :=
  match n with
  | 0 => Ok buf
  | S n' =>
      match last, d_last with
      | S last', S d_last' =>
          x ← ArrayPtr.get buf last';
          buf' ← ArrayPtr.set buf d_last' x;
          move_backward_loop buf' last' n' d_last'
      | _, _ => Fail OutOfBuffer
      end
  end.

Definition std_move_backward (buf : list T) (first last d_last : nat) : result (list T) :=
  move_backward_loop buf last (last - first) d_last.

(** [std::equal(first1, last1, first2)]:
    [for (; first1 != last1; ++first1, ++first2)
       if (!( *first1 == *first2 )) return false;
     return true;] *)
Fixpoint equal_loop `{EqualityComparable T}
    (a : list T) (first1 n : nat) (b : list T) (first2 : nat) {struct n}
  : result bool :=
  match n with
  | 0 => Ok true
  | S n' =>
      x ← ArrayPtr.get a first1;
      y ← ArrayPtr.get b first2;
      if elem_eq x y then equal_loop a (S first1) n' b (S first2) else Ok false
  end.

Definition std_equal `{EqualityComparable T}
    (a : list T) (first1 last1 : nat) (b : list T) (first2 : nat) : result bool :=
  equal_loop a first1 (last1 - first1) b first2.

(** [std::lexicographical_compare(first1, last1, first2, last2)]:
    [for (; first1 != last1 && first2 != last2; ++first1, ++first2) {
       if ( *first1 < *first2 ) return true;
       if ( *first2 < *first1 ) return false;
     }
     return first1 == last1 && first2 != last2;] *)
Fixpoint lexicographical_loop `{LessThanComparable T}
    (a : list T) (first1 n1 : nat) (b : list T) (first2 n2 : nat) {struct n1}
  : result bool :=
  match n1, n2 with
  | S n1', S n2' =>
      x ← ArrayPtr.get a first1;
      y ← ArrayPtr.get b first2;
      if elem_lt x y then Ok true
      else if elem_lt y x then Ok false
      else lexicographical_loop a (S first1) n1' b (S first2) n2'
  | 0, S _ => Ok true
  | _, _ => Ok false
  end.

Definition std_lexicographical_compare `{LessThanComparable T}
    (a : list T) (first1 last1 : nat) (b : list T) (first2 last2 : nat) : result bool :=
  lexicographical_loop a first1 (last1 - first1) b first2 (last2 - first2).
End algorithms.

(** [std::move(first, last, d_first)] into another block; elements are
    values, so the loop is the one of [std::copy]. *)
Definition std_move {T : Type} := @std_copy T.

(** ** The class *)

(** [struct ReserveProxyObj] and the free function [Reserve] that builds it
    (named [ReserveProxy] here, [Reserve] being the member function). *)
Record ReserveProxyObj : Set := mkReserveProxyObj { capacity : nat }.

Definition ReserveProxy (capacity_to_reserve : nat) : ReserveProxyObj :=
  mkReserveProxyObj capacity_to_reserve.

(** What a reference parameter ([const Type&], [Type&&]) of a member call
    is bound to: an object outside the block of the vector the member is
    called on, or the slot [index] of that block, as in
    [v.PushBack(v[index])]. *)
Inductive reference (T : Type) : Type :=
  | Outside (value : T)
  | Element (index : nat).
Arguments Outside {T} value.
Arguments Element {T} index.

Record SimpleVector (T : Type) : Type := mkSimpleVector {
  items_ : list T;      (* ArrayPtr<Type> items_ *)
  size_ : nat;          (* size_t size_ *)
  capacity_ : nat       (* size_t capacity_ *)
}.
Arguments mkSimpleVector {T} items_ size_ capacity_.
Arguments items_ {T} s.
Arguments size_ {T} s.
Arguments capacity_ {T} s.

Section members.
Context {T : Type} `{DefaultValue T}.
Implicit Types (v other : SimpleVector T) (value : T).

(** *** Constructors *)

(** [SimpleVector() noexcept = default] *)
Definition SimpleVector_default : SimpleVector T :=
  {| items_ := ArrayPtr.null; size_ := 0; capacity_ := 0 |}.

(** [explicit SimpleVector(size_t size)] *)
Definition SimpleVector_sized (size : nat) : result (SimpleVector T) :=
  let items := if 0 <? size then ArrayPtr.make size else ArrayPtr.null in
  items ← std_fill items 0 (0 + size) Type_default;
  Ok {| items_ := items; size_ := size; capacity_ := size |}.

(** [SimpleVector(size_t size, const Type& value)] *)
Definition SimpleVector_filled (size : nat) value : result (SimpleVector T) :=
  let items := ArrayPtr.make size in
  items ← std_fill items 0 (0 + size) value;
  Ok {| items_ := items; size_ := size; capacity_ := size |}.

(** [SimpleVector(std::initializer_list<Type> init)] *)
Definition SimpleVector_init (init : list T) : result (SimpleVector T) :=
  let items := if 0 <? length init then ArrayPtr.make (length init) else ArrayPtr.null in
  items ← std_copy init 0 (length init) items 0;
  Ok {| items_ := items; size_ := length init; capacity_ := length init |}.

(** [SimpleVector(const SimpleVector& other)] *)
Definition SimpleVector_copy other : result (SimpleVector T) :=
  let items := if 0 <? size_ other then ArrayPtr.make (size_ other) else ArrayPtr.null in
  let size := size_ other in
  let capacity := capacity_ other in
  items ← std_copy (items_ other) 0 (0 + size) items 0;
  Ok {| items_ := items; size_ := size; capacity_ := capacity |}.

(** [SimpleVector(SimpleVector&& other) noexcept]: the new object and the
    state the source is left in. *)
Definition SimpleVector_move other : SimpleVector T * SimpleVector T :=
  ({| items_ := items_ other; size_ := size_ other; capacity_ := capacity_ other |},
   {| items_ := ArrayPtr.null; size_ := 0; capacity_ := 0 |}).

(** [explicit SimpleVector(ReserveProxyObj reserve)].  The block comes from
    a plain [new Type[n]], which default-initialises its slots: the default
    constructor for a class type, indeterminate contents for a type such as
    [int].  [fresh i] is what slot [i] of the new array holds. *)
Definition SimpleVector_reserve (reserve : ReserveProxyObj) (fresh : nat → T)
  : SimpleVector T :=
  {| items_ := if 0 <? capacity reserve then fresh <$> seq 0 (capacity reserve)
               else ArrayPtr.null;
     size_ := 0;
     capacity_ := capacity reserve |}.

(** *** Queries *)

Definition GetSize v : nat := size_ v.
Definition GetCapacity v : nat := capacity_ v.
Definition IsEmpty v : bool := size_ v =? 0.

(** [begin()] and [end()], as offsets from [items_.Get()]. *)
Definition begin_ v : nat := 0.
Definition end_ v : nat := 0 + size_ v.

(** [operator[]], const and non-const: the assert, then the raw access. *)
Definition subscript v (index : nat) : result T :=
  _ ← assert (index <? size_ v);
  ArrayPtr.get (items_ v) index.

(** [Type& At(size_t index)]: the outcome, and the object after the call
    (the exception can be caught, the object lives on). *)
Definition At v (index : nat) : result T * SimpleVector T :=
  if size_ v <=? index then (Fail IndexOutOfRange, v)
  else (ArrayPtr.get (items_ v) index, v).

(** [const Type& At(size_t index) const] *)
Definition At_const v (index : nat) : result T :=
  if size_ v <=? index then Fail IndexOutOfRange
  else ArrayPtr.get (items_ v) index.

(** [v[index] = value], a write through the reference [operator[]] returns *)
Definition assign_subscript v (index : nat) value : result (SimpleVector T) :=
  _ ← assert (index <? size_ v);
  items ← ArrayPtr.set (items_ v) index value;
  Ok {| items_ := items; size_ := size_ v; capacity_ := capacity_ v |}.

(** *** Modifiers *)

Definition Clear v : SimpleVector T :=
  {| items_ := items_ v; size_ := 0; capacity_ := capacity_ v |}.

Definition Resize v (new_size : nat) : result (SimpleVector T) :=
  if new_size <? size_ v then
    Ok {| items_ := items_ v; size_ := new_size; capacity_ := capacity_ v |}
  else if new_size <=? capacity_ v then
    items ← std_fill (items_ v) (0 + size_ v) (0 + new_size) Type_default;
    Ok {| items_ := items; size_ := new_size; capacity_ := capacity_ v |}
  else
    let new_data := ArrayPtr.make new_size in
    new_data ← std_move (items_ v) 0 (0 + size_ v) new_data 0;
    new_data ← std_fill new_data (0 + size_ v) (0 + new_size) Type_default;
    let '(items, _) := ArrayPtr.swap (items_ v) new_data in
    Ok {| items_ := items; size_ := new_size; capacity_ := new_size |}.

Definition Reserve v (new_capacity : nat) : result (SimpleVector T) :=
  if capacity_ v <? new_capacity then
    let new_data := ArrayPtr.make new_capacity in
    new_data ← std_move (items_ v) 0 (0 + size_ v) new_data 0;
    let '(items, _) := ArrayPtr.swap (items_ v) new_data in
    Ok {| items_ := items; size_ := size_ v; capacity_ := new_capacity |}
  else Ok v.

Definition PopBack v : result (SimpleVector T) :=
  _ ← assert (0 <? size_ v);
  Ok {| items_ := items_ v; size_ := size_ v - 1; capacity_ := capacity_ v |}.

(** Reading through a reference parameter.  [block] is the block the
    vector owned when the call began, or [None] once that block has been
    released: a reference to one of its slots then dangles, and reading it
    is an access outside any owned block. *)
Definition read_reference (block : option (list T)) (r : reference T) : result T :=
  match r with
  | Outside value => Ok value
  | Element index =>
      match block with
      | Some items => ArrayPtr.get items index
      | None => Fail OutOfBuffer
      end
  end.

(** [void PushBack(const Type& value)].  On the growing path [new_data],
    which holds the old block after the swap, is destroyed at the end of
    the branch, before [items_[size_] = value] reads [value]. *)
Definition PushBack v (value : reference T) : result (SimpleVector T) :=
  '(v, block) ← (if capacity_ v <=? size_ v then
         let capacity := max (capacity_ v * 2) 1 in
         let new_data := ArrayPtr.make capacity in
         new_data ← std_move (items_ v) 0 (0 + size_ v) new_data 0;
         let '(items, _) := ArrayPtr.swap (items_ v) new_data in
         Ok ({| items_ := items; size_ := size_ v; capacity_ := capacity |}, None)
       else Ok (v, Some (items_ v)));
  value ← read_reference block value;
  items ← ArrayPtr.set (items_ v) (size_ v) value;
  Ok {| items_ := items; size_ := size_ v + 1; capacity_ := capacity_ v |}.

(** [void PushBack(Type&& value)].  [Reserve] releases the old block when
    it reallocates, that is when [new_capacity > capacity_], before
    [items_[size_] = std::move(value)] reads [value]. *)
Definition PushBack_rvalue v (value : reference T) : result (SimpleVector T) :=
  '(v, block) ← (if capacity_ v <=? size_ v then
         let new_capacity := max (capacity_ v * 2) 1 in
         v' ← Reserve v new_capacity;
         Ok (v', if capacity_ v <? new_capacity then None else Some (items_ v))
       else Ok (v, Some (items_ v)));
  value ← read_reference block value;
  items ← ArrayPtr.set (items_ v) (size_ v) value;
  Ok {| items_ := items; size_ := size_ v + 1; capacity_ := capacity_ v |}.

(** [Iterator Insert(ConstIterator pos, Type value)]: the returned
    iterator and the object after the call. *)
Definition Insert v (pos : nat) value : result (nat * SimpleVector T) :=
  _ ← assert ((begin_ v <=? pos) && (pos <=? end_ v));
  let index := pos - begin_ v in
  v ← (if capacity_ v <=? size_ v then Reserve v (max (capacity_ v * 2) 1)
       else
         items ← std_move_backward (items_ v) (0 + index) (0 + size_ v)
                                   (0 + size_ v + 1);
         Ok {| items_ := items; size_ := size_ v; capacity_ := capacity_ v |});
  items ← ArrayPtr.set (items_ v) index value;
  Ok (0 + index,
      {| items_ := items; size_ := size_ v + 1; capacity_ := capacity_ v |}).

(** [Iterator Erase(ConstIterator pos)] *)
Definition Erase v (pos : nat) : result (nat * SimpleVector T) :=
  _ ← assert ((begin_ v <=? pos) && (pos <? end_ v));
  let index := pos - begin_ v in
  items ← std_move_within (items_ v) (0 + index + 1) (0 + size_ v) (0 + index);
  Ok (0 + index,
      {| items_ := items; size_ := size_ v - 1; capacity_ := capacity_ v |}).

(** [void swap(SimpleVector& other) noexcept], on two distinct objects:
    the object and [other] after the call. *)
Definition swap v other : SimpleVector T * SimpleVector T :=
  let '(items, other_items) := ArrayPtr.swap (items_ v) (items_ other) in
  ({| items_ := items; size_ := size_ other; capacity_ := capacity_ other |},
   {| items_ := other_items; size_ := size_ v; capacity_ := capacity_ v |}).

(** The guarded statements of [operator=(SimpleVector&& rhs)]:
    [items_.swap(rhs.items_)], then [size_ = std::exchange(rhs.size_, 0)]
    and [capacity_ = std::exchange(rhs.capacity_, 0)]. *)
Definition move_assign_body v rhs : SimpleVector T * SimpleVector T :=
  let '(items, rhs_items) := ArrayPtr.swap (items_ v) (items_ rhs) in
  ({| items_ := items; size_ := size_ rhs; capacity_ := capacity_ rhs |},
   {| items_ := rhs_items; size_ := 0; capacity_ := 0 |}).

(** *** Comparison operators *)

Definition cbegin v : nat := 0.
Definition cend v : nat := 0 + size_ v.

Definition op_eq `{EqualityComparable T} (lhs rhs : SimpleVector T) : result bool :=
  if GetSize lhs =? GetSize rhs
  then std_equal (items_ lhs) (cbegin lhs) (cend lhs) (items_ rhs) (cbegin rhs)
  else Ok false.

Definition op_ne `{EqualityComparable T} (lhs rhs : SimpleVector T) : result bool :=
  negb <$> op_eq lhs rhs.

Definition op_lt `{LessThanComparable T} (lhs rhs : SimpleVector T) : result bool :=
  std_lexicographical_compare (items_ lhs) (cbegin lhs) (cend lhs)
                              (items_ rhs) (cbegin rhs) (cend rhs).

Definition op_le `{LessThanComparable T} (lhs rhs : SimpleVector T) : result bool :=
  negb <$> op_lt rhs lhs.

Definition op_gt `{LessThanComparable T} (lhs rhs : SimpleVector T) : result bool :=
  op_lt rhs lhs.

Definition op_ge `{LessThanComparable T} (lhs rhs : SimpleVector T) : result bool :=
  negb <$> op_lt lhs rhs.
End members.

(** ** Objects in memory

    Assignment and [swap] take a second object by reference, and the
    assignments compare addresses ([this != &rhs]).  A store maps the
    address of each [SimpleVector] object to its state. *)

Definition object := nat.

Abbreviation store T := (object → SimpleVector T).

Inductive operation (T : Type) : Type :=
  | New_default (this : object)
  | New_sized (this : object) (size : nat)
  | New_filled (this : object) (size : nat) (value : T)
  | New_init (this : object) (init : list T)
  | New_copy (this other : object)
  | New_move (this other : object)
  | New_reserve (this : object) (reserve : ReserveProxyObj) (fresh : nat → T)
  | Assign_copy (this rhs : object)
  | Assign_move (this rhs : object)
  | Call_Clear (this : object)
  | Call_Resize (this : object) (new_size : nat)
  | Call_Reserve (this : object) (new_capacity : nat)
  | Call_PopBack (this : object)
  | Call_PushBack (this : object) (value : T)
  | Call_PushBack_rvalue (this : object) (value : T)
  | Call_Insert (this : object) (pos : nat) (value : T)
  | Call_Erase (this : object) (pos : nat)
  | Call_swap (this other : object).
Arguments New_default {T}.
Arguments New_sized {T}.
Arguments New_filled {T}.
Arguments New_init {T}.
Arguments New_copy {T}.
Arguments New_move {T}.
Arguments New_reserve {T}.
Arguments Assign_copy {T}.
Arguments Assign_move {T}.
Arguments Call_Clear {T}.
Arguments Call_Resize {T}.
Arguments Call_Reserve {T}.
Arguments Call_PopBack {T}.
Arguments Call_PushBack {T}.
Arguments Call_PushBack_rvalue {T}.
Arguments Call_Insert {T}.
Arguments Call_Erase {T}.
Arguments Call_swap {T}.

Section store.
Context {T : Type} `{DefaultValue T}.

(** [SimpleVector& operator=(const SimpleVector& rhs)]: the copy [temp]
    is a local object, destroyed when the block ends. *)
Definition copy_assign (this rhs : object) (st : store T) : result (store T) :=
  if decide (this ≠ rhs) then
    temp ← SimpleVector_copy (st rhs);
    let '(v, _) := swap (st this) temp in
    Ok (<[this := v]> st)
  else Ok st.

(** [SimpleVector& operator=(SimpleVector&& rhs) noexcept] *)
Definition move_assign (this rhs : object) (st : store T) : store T :=
  if decide (this ≠ rhs) then
    let '(v, r) := move_assign_body (st this) (st rhs) in
    <[rhs := r]> (<[this := v]> st)
  else st.

(** [swap] called on an object and a reference that may be the object
    itself, in which case every member is exchanged with itself. *)
Definition swap_objects (this other : object) (st : store T) : store T :=
  if decide (this ≠ other) then
    let '(v, o) := swap (st this) (st other) in
    <[other := o]> (<[this := v]> st)
  else st.

(** One public operation on the objects in memory.  The value a
    [Call_PushBack] carries is an object outside the vector's block. *)
Definition step (op : operation T) (st : store T) : result (store T) :=
  match op with
  | New_default this => Ok (<[this := SimpleVector_default]> st)
  | New_sized this size => v ← SimpleVector_sized size; Ok (<[this := v]> st)
  | New_filled this size value =>
      v ← SimpleVector_filled size value; Ok (<[this := v]> st)
  | New_init this init => v ← SimpleVector_init init; Ok (<[this := v]> st)
  | New_copy this other => v ← SimpleVector_copy (st other); Ok (<[this := v]> st)
  | New_move this other =>
      let '(v, o) := SimpleVector_move (st other) in
      Ok (<[this := v]> (<[other := o]> st))
  | New_reserve this reserve fresh =>
      Ok (<[this := SimpleVector_reserve reserve fresh]> st)
  | Assign_copy this rhs => copy_assign this rhs st
  | Assign_move this rhs => Ok (move_assign this rhs st)
  | Call_Clear this => Ok (<[this := Clear (st this)]> st)
  | Call_Resize this new_size => v ← Resize (st this) new_size; Ok (<[this := v]> st)
  | Call_Reserve this new_capacity =>
      v ← Reserve (st this) new_capacity; Ok (<[this := v]> st)
  | Call_PopBack this => v ← PopBack (st this); Ok (<[this := v]> st)
  | Call_PushBack this value =>
      v ← PushBack (st this) (Outside value); Ok (<[this := v]> st)
  | Call_PushBack_rvalue this value =>
      v ← PushBack_rvalue (st this) (Outside value); Ok (<[this := v]> st)
  | Call_Insert this pos value =>
      '(_, v) ← Insert (st this) pos value; Ok (<[this := v]> st)
  | Call_Erase this pos => '(_, v) ← Erase (st this) pos; Ok (<[this := v]> st)
  | Call_swap this other => Ok (swap_objects this other st)
  end.

(** The object an operation constructs, if it is a constructor. *)
Definition constructed (op : operation T) : option object :=
  match op with
  | New_default this | New_sized this _ | New_filled this _ _ | New_init this _
  | New_copy this _ | New_move this _ | New_reserve this _ _ => Some this
  | _ => None
  end.

(** The preconditions the class states: the asserts of [PopBack],
    [Insert] and [Erase]; a constructor builds an object that is not its
    own argument. *)
Definition precondition (op : operation T) (st : store T) : Prop :=
  match op with
  | New_copy this other | New_move this other => this ≠ other
  | Call_PopBack this => 0 < size_ (st this)
  | Call_Insert this pos _ => pos ≤ size_ (st this)
  | Call_Erase this pos => pos < size_ (st this)
  | _ => True
  end.

(** The operations that go through the copy constructor. *)
Definition copies (op : operation T) : bool :=
  match op with
  | New_copy _ _ | Assign_copy _ _ => true
  | _ => false
  end.

(** [o] is the source of a move assignment to another object. *)
Definition moved_from (op : operation T) (o : object) : bool :=
  match op with
  | Assign_move this rhs => bool_decide (rhs = o) && negb (bool_decide (this = rhs))
  | _ => false
  end.

(** [PushBack] called on each value of a list in turn, the values being
    objects outside the vector's block. *)
Fixpoint PushBack_all (v : SimpleVector T) (values : list T) : result (SimpleVector T) :=
  match values with
  | [] => Ok v
  | value :: values => v ← PushBack v (Outside value); PushBack_all v values
  end.
End store.

(** ** Representation predicates *)

Section representation.
Context {T : Type}.
Implicit Types (v : SimpleVector T).

(** Number of slots of the block the object owns. *)
Definition slots v : nat := length (items_ v).

(** The live elements, at the logical indices [[0, size)]. *)
Definition live v : list T := take (size_ v) (items_ v).

(** The class invariant the member functions rely on: the logical size is
    within the stored capacity, which is within the owned block. *)
Definition valid v : Prop := size_ v ≤ capacity_ v ∧ capacity_ v ≤ slots v.

(** The stored capacity is the number of slots of the owned block. *)
Definition exact v : Prop := size_ v ≤ capacity_ v ∧ capacity_ v = slots v.

(** Capacity and block after the growth step of [PushBack] and [Insert]:
    doubled, at least 1, when the vector is full; the block then holds
    the live elements followed by default values. *)
Definition grown_capacity v : nat :=
  if capacity_ v <=? size_ v then max (capacity_ v * 2) 1 else capacity_ v.

Definition grown_block `{DefaultValue T} v : list T :=
  if capacity_ v <=? size_ v
  then live v ++ replicate (grown_capacity v - size_ v) Type_default
  else items_ v.

(** Lexicographic order of two sequences over the elements' [<], as the
    spec words it: the first position where the elements differ decides,
    and a proper prefix comes before its extensions. *)
Inductive lexicographic_lt `{LessThanComparable T} : list T → list T → Prop :=
  | lex_prefix y ys : lexicographic_lt [] (y :: ys)
  | lex_head x xs y ys : elem_lt x y = true → lexicographic_lt (x :: xs) (y :: ys)
  | lex_tail x xs y ys :
      elem_lt x y = false → elem_lt y x = false →
      lexicographic_lt xs ys → lexicographic_lt (x :: xs) (y :: ys).

(** Pairwise equality of two sequences in index order, over the
    elements' [==]. *)
Definition pairwise_equal `{EqualityComparable T} (xs ys : list T) : Prop :=
  ∀ i x y, xs !! i = Some x → ys !! i = Some y → elem_eq x y = true.
End representation.

(** ** Sample objects *)

(** A vector with spare capacity, [{1, 2, 3}] on four slots. *)
Definition sample : SimpleVector Z :=
  {| items_ := [1; 2; 3; 0]%Z; size_ := 3; capacity_ := 4 |}.

(** A full vector, [{1, 2}] on two slots. *)
Definition sample_full : SimpleVector Z :=
  {| items_ := [1; 2]%Z; size_ := 2; capacity_ := 2 |}.

(** Object 0 is [sample_full], every other object is an empty vector. *)
Definition sample_store : store Z := <[0 := sample_full]> (λ _, SimpleVector_default).

(** ** Tactics *)

(** Case analysis on the results a monadic computation binds, innermost
    first. *)
Ltac case_result H :=
  simpl in H;
  repeat match type of H with
  | context [mbind _ ?r] =>
      lazymatch r with
      | context [mbind _ _] => fail
      | _ => let E := fresh "E" in destruct r eqn:E; simpl in H
      end
  | context [let '(_, _) := ?p in _] => let E := fresh "E" in destruct p eqn:E; simpl in H
  end.

(** Case analysis on whether [o] is the object [this] a store was updated
    at. *)
Ltac case_object o this :=
  destruct (decide (this = o)) as [<-|?];
  [rewrite ?fn_lookup_insert | rewrite ?(fn_lookup_insert_ne _ this o) by done].

(** * Properties of the block operations and of the algorithms *)

Section algorithm_facts.
Context {T : Type}.
Implicit Types (buf src dst : list T) (x : T).

Lemma get_Ok buf i x : buf !! i = Some x → ArrayPtr.get buf i = Ok x.
Proof. unfold ArrayPtr.get. by intros ->. Qed.

Lemma get_lt buf i : i < length buf → ∃ x, buf !! i = Some x ∧ ArrayPtr.get buf i = Ok x.
Proof.
  intros Hi. destruct (lookup_lt_is_Some_2 buf i Hi) as [x Hx].
  exists x. split; [done | by apply get_Ok].
Qed.

Lemma get_not_thrown buf i : ArrayPtr.get buf i ≠ Fail IndexOutOfRange.
Proof. unfold ArrayPtr.get. by destruct (buf !! i). Qed.

Lemma set_Ok buf i x : i < length buf → ArrayPtr.set buf i x = Ok (<[i:=x]> buf).
Proof.
  intros Hi. unfold ArrayPtr.set.
  by destruct (lookup_lt_is_Some_2 buf i Hi) as [y ->].
Qed.

Lemma set_Fail buf i x : length buf ≤ i → ArrayPtr.set buf i x = Fail OutOfBuffer.
Proof. intros Hi. unfold ArrayPtr.set. by rewrite lookup_ge_None_2. Qed.

(** [std::fill] overwrites exactly the slots of [[first, first + n)]. *)
Lemma fill_loop_spec buf first n x :
  first + n ≤ length buf →
  ∃ buf', fill_loop buf first n x = Ok buf'
    ∧ length buf' = length buf
    ∧ ∀ i, buf' !! i = if decide (first ≤ i < first + n) then Some x else buf !! i.
Proof.
  revert buf first. induction n as [|n IH]; intros buf first Hlen; simpl.
  - exists buf. split_and!; [done..|]. intros i. case_decide; [lia | done].
  - rewrite set_Ok by lia. simpl.
    destruct (IH (<[first:=x]> buf) (S first)) as (buf' & -> & Hl & Hi).
    { rewrite length_insert. lia. }
    exists buf'. rewrite length_insert in Hl. split_and!; [done..|].
    intros i. rewrite Hi. repeat case_decide; try lia; try done.
    + destruct (decide (i = first)) as [->|]; [|lia].
      rewrite list_lookup_insert_eq; [done | lia].
    + rewrite list_lookup_insert_ne; [done | lia].
Qed.

(** [std::copy] between two blocks writes the source range over
    [[d_first, d_first + n)] and nothing else. *)
Lemma copy_loop_spec src first n dst d_first :
  first + n ≤ length src → d_first + n ≤ length dst →
  ∃ dst', copy_loop src first n dst d_first = Ok dst'
    ∧ length dst' = length dst
    ∧ ∀ i, dst' !! i = if decide (d_first ≤ i < d_first + n)
                       then src !! (first + (i - d_first)) else dst !! i.
Proof.
  revert first dst d_first. induction n as [|n IH]; intros first dst d Hs Hd; simpl.
  - exists dst. split_and!; [done..|]. intros i. case_decide; [lia | done].
  - destruct (get_lt src first) as (x & Hx & ->); [lia|]. simpl.
    rewrite set_Ok by lia. simpl.
    destruct (IH (S first) (<[d:=x]> dst) (S d)) as (dst' & -> & Hl & Hi).
    { lia. } { rewrite length_insert. lia. }
    exists dst'. rewrite length_insert in Hl. split_and!; [done..|].
    intros i. rewrite Hi. repeat case_decide; try lia.
    + f_equal. lia.
    + destruct (decide (i = d)) as [->|]; [|lia].
      rewrite list_lookup_insert_eq by lia. rewrite <- Hx. f_equal. lia.
    + rewrite list_lookup_insert_ne; [done | lia].
Qed.

(** [std::move] towards lower offsets of the same block: the range
    [[first, first + n)] lands on [[d_first, d_first + n)]. *)
Lemma move_loop_spec buf first n d_first :
  d_first ≤ first → first + n ≤ length buf →
  ∃ buf', move_loop buf first n d_first = Ok buf'
    ∧ length buf' = length buf
    ∧ ∀ i, buf' !! i = if decide (d_first ≤ i < d_first + n)
                       then buf !! (first + (i - d_first)) else buf !! i.
Proof.
  revert buf first d_first. induction n as [|n IH]; intros buf first d Hd Hlen; simpl.
  - exists buf. split_and!; [done..|]. intros i. case_decide; [lia | done].
  - destruct (get_lt buf first) as (x & Hx & ->); [lia|]. simpl.
    rewrite set_Ok by lia. simpl.
    destruct (IH (<[d:=x]> buf) (S first) (S d)) as (buf' & -> & Hl & Hi).
    { lia. } { rewrite length_insert. lia. }
    exists buf'. rewrite length_insert in Hl. split_and!; [done..|].
    intros i. rewrite Hi. repeat case_decide; try lia.
    + rewrite list_lookup_insert_ne by lia. f_equal. lia.
    + destruct (decide (i = d)) as [->|]; [|lia].
      rewrite list_lookup_insert_eq by lia. rewrite <- Hx. f_equal. lia.
    + rewrite list_lookup_insert_ne; [done | lia].
Qed.

(** [std::move_backward] towards higher offsets of the same block: the
    range [[last - n, last)] lands on [[d_last - n, d_last)]. *)
Lemma move_backward_loop_spec buf last n d_last :
  n ≤ last → last ≤ d_last → d_last ≤ length buf →
  ∃ buf', move_backward_loop buf last n d_last = Ok buf'
    ∧ length buf' = length buf
    ∧ ∀ i, buf' !! i = if decide (d_last - n ≤ i < d_last)
                       then buf !! (last - n + (i - (d_last - n))) else buf !! i.
Proof.
  revert buf last d_last.
  induction n as [|n IH]; intros buf last d Hn Hd Hlen; simpl.
  - exists buf. split_and!; [done..|]. intros i. case_decide; [lia | done].
  - destruct last as [|last]; [lia|]. destruct d as [|d]; [lia|].
    destruct (get_lt buf last) as (x & Hx & ->); [lia|]. simpl.
    rewrite set_Ok by lia. simpl.
    destruct (IH (<[d:=x]> buf) last d) as (buf' & -> & Hl & Hi).
    { lia. } { lia. } { rewrite length_insert. lia. }
    exists buf'. rewrite length_insert in Hl. split_and!; [done..|].
    intros i. rewrite Hi. repeat case_decide; try lia.
    + rewrite list_lookup_insert_ne; [done | lia].
    + destruct (decide (i = d)) as [->|]; [|lia].
      rewrite list_lookup_insert_eq by lia. rewrite <- Hx. f_equal. lia.
    + rewrite list_lookup_insert_ne; [done | lia].
Qed.
End algorithm_facts.

(** * Properties of the constructors and member functions *)

Section list_facts.
Context {T : Type}.
Implicit Types (l : list T) (x : T).

Lemma take_S_insert l i x : i < length l → take (S i) (<[i:=x]> l) = take i l ++ [x].
Proof.
  intros Hi. rewrite (take_S_r _ _ x).
  - by rewrite take_insert_ge.
  - by apply list_lookup_insert_eq.
Qed.
End list_facts.

Section member_facts.
Context {T : Type} `{DefaultValue T}.
Implicit Types (v other : SimpleVector T) (value : T) (buf src : list T).

Lemma valid_size_slots v : valid v → size_ v ≤ slots v.
Proof. unfold valid. lia. Qed.

Lemma exact_valid v : exact v → valid v.
Proof. unfold exact, valid. lia. Qed.

Lemma length_live v : size_ v ≤ slots v → length (live v) = size_ v.
Proof. intros Hs. unfold live. rewrite length_take. unfold slots in Hs. lia. Qed.

Lemma lookup_live v i : i < size_ v → live v !! i = items_ v !! i.
Proof. intros Hi. unfold live. by rewrite lookup_take_lt. Qed.

(** A range copied to the front of a new block. *)
Lemma copy_to_new_block src n m :
  n ≤ length src → n ≤ m →
  std_copy src 0 (0 + n) (ArrayPtr.make m) 0
  = Ok (take n src ++ replicate (m - n) Type_default).
Proof.
  intros Hn Hm. unfold std_copy. replace (0 + n - 0) with n by lia.
  destruct (copy_loop_spec src 0 n (ArrayPtr.make m) 0) as (dst & -> & Hl & Hi).
  { lia. } { unfold ArrayPtr.make. rewrite length_replicate. lia. }
  f_equal. apply list_eq. intros i. rewrite Hi.
  unfold ArrayPtr.make in *. rewrite length_replicate in Hl.
  case_decide.
  - rewrite lookup_app_l by (rewrite length_take; lia).
    rewrite lookup_take_lt by lia. f_equal. lia.
  - rewrite lookup_app_r by (rewrite length_take; lia).
    rewrite length_take. replace (n `min` length src) with n by lia.
    destruct (decide (i < m)).
    + rewrite !lookup_replicate_2 by lia. done.
    + rewrite (proj1 (lookup_replicate_None _ _ _)) by lia.
      by rewrite (proj1 (lookup_replicate_None _ _ _)) by lia.
Qed.

(** [std::fill] as a list equation. *)
Lemma std_fill_Ok buf first last value :
  first ≤ last → last ≤ length buf →
  std_fill buf first last value
  = Ok (take first buf ++ replicate (last - first) value ++ drop last buf).
Proof.
  intros Hf Hl. unfold std_fill.
  destruct (fill_loop_spec buf first (last - first) value) as (buf' & -> & Hlen & Hi).
  { lia. }
  f_equal. apply list_eq. intros i. rewrite Hi. case_decide.
  - rewrite lookup_app_r by (rewrite length_take; lia).
    rewrite length_take. rewrite lookup_app_l by (rewrite length_replicate; lia).
    rewrite lookup_replicate_2 by lia. done.
  - destruct (decide (i < first)).
    + rewrite lookup_app_l by (rewrite length_take; lia).
      by rewrite lookup_take_lt.
    + rewrite lookup_app_r by (rewrite length_take; lia).
      rewrite length_take.
      rewrite lookup_app_r by (rewrite length_replicate; lia).
      rewrite length_replicate, lookup_drop. f_equal. lia.
Qed.

(** *** Reserve *)

Lemma Reserve_grow v new_capacity :
  size_ v ≤ slots v → size_ v ≤ new_capacity → capacity_ v < new_capacity →
  Reserve v new_capacity
  = Ok {| items_ := live v ++ replicate (new_capacity - size_ v) Type_default;
          size_ := size_ v; capacity_ := new_capacity |}.
Proof.
  intros Hs Hn Hc. unfold Reserve, std_move.
  destruct (Nat.ltb_spec (capacity_ v) new_capacity); [|lia].
  rewrite copy_to_new_block by done. done.
Qed.

Lemma Reserve_enough v new_capacity :
  new_capacity ≤ capacity_ v → Reserve v new_capacity = Ok v.
Proof.
  intros Hc. unfold Reserve.
  destruct (Nat.ltb_spec (capacity_ v) new_capacity); [lia | done].
Qed.

(** *** PushBack *)

Lemma grown_capacity_gt v : size_ v ≤ capacity_ v → size_ v < grown_capacity v.
Proof.
  intros Hs. unfold grown_capacity.
  destruct (Nat.leb_spec (capacity_ v) (size_ v)); lia.
Qed.

Lemma length_grown_block v :
  valid v → grown_capacity v ≤ length (grown_block v)
           ∧ (exact v → length (grown_block v) = grown_capacity v).
Proof.
  intros [Hs Hc]. unfold grown_block, grown_capacity, exact, slots in *.
  destruct (Nat.leb_spec (capacity_ v) (size_ v)).
  - rewrite length_app, length_replicate.
    unfold live. rewrite length_take. lia.
  - lia.
Qed.

Lemma take_grown_block v : valid v → take (size_ v) (grown_block v) = live v.
Proof.
  intros [Hs Hc]. unfold grown_block, slots in *.
  destruct (Nat.leb_spec (capacity_ v) (size_ v)); [|done].
  rewrite take_app_length'; [done|].
  unfold live. rewrite length_take. lia.
Qed.

(** The growth step shared by [PushBack(Type&&)] and [Insert]. *)
Lemma Reserve_doubling v :
  valid v → capacity_ v ≤ size_ v →
  Reserve v (max (capacity_ v * 2) 1)
  = Ok {| items_ := grown_block v; size_ := size_ v; capacity_ := grown_capacity v |}.
Proof.
  intros [Hs Hc] Hfull. rewrite Reserve_grow by (unfold slots in *; lia).
  unfold grown_block, grown_capacity.
  destruct (Nat.leb_spec (capacity_ v) (size_ v)); [done | lia].
Qed.

Lemma PushBack_Ok v value :
  valid v →
  PushBack v (Outside value)
  = Ok {| items_ := <[size_ v := value]> (grown_block v);
          size_ := size_ v + 1; capacity_ := grown_capacity v |}.
Proof.
  intros Hv. pose proof (length_grown_block v Hv) as [Hlen _].
  pose proof (grown_capacity_gt v (proj1 Hv)) as Hgt.
  destruct Hv as [Hs Hc]. unfold PushBack, std_move.
  unfold grown_block, grown_capacity in *.
  destruct (Nat.leb_spec (capacity_ v) (size_ v)).
  - rewrite copy_to_new_block by (unfold slots in *; lia). fold (live v). simpl.
    rewrite set_Ok by lia. done.
  - simpl. rewrite set_Ok by lia. done.
Qed.

Lemma PushBack_rvalue_Ok v value :
  valid v →
  PushBack_rvalue v (Outside value)
  = Ok {| items_ := <[size_ v := value]> (grown_block v);
          size_ := size_ v + 1; capacity_ := grown_capacity v |}.
Proof.
  intros Hv. pose proof (length_grown_block v Hv) as [Hlen _].
  pose proof (grown_capacity_gt v (proj1 Hv)) as Hgt.
  unfold PushBack_rvalue.
  destruct (Nat.leb_spec (capacity_ v) (size_ v)) as [Hfull|Hspare].
  - rewrite Reserve_doubling by done. simpl.
    rewrite set_Ok by lia. done.
  - simpl. unfold grown_block, grown_capacity in *.
    destruct (Nat.leb_spec (capacity_ v) (size_ v)); [lia|].
    rewrite set_Ok by lia. done.
Qed.

Lemma PushBack_live v value :
  valid v →
  ∃ v', PushBack v (Outside value) = Ok v' ∧ valid v' ∧ (exact v → exact v')
    ∧ size_ v' = size_ v + 1 ∧ live v' = live v ++ [value].
Proof.
  intros Hv. pose proof (length_grown_block v Hv) as [Hlen Hex].
  pose proof (grown_capacity_gt v (proj1 Hv)) as Hgt.
  eexists. split; [by apply PushBack_Ok|].
  unfold valid, exact, slots, live. simpl. rewrite length_insert.
  split_and!; [lia | lia | | done |].
  - intros He. specialize (Hex He). lia.
  - replace (size_ v + 1) with (S (size_ v)) by lia.
    rewrite take_S_insert by lia. by rewrite take_grown_block.
Qed.

Lemma PushBack_all_live values : ∀ v,
  valid v →
  ∃ w, PushBack_all v values = Ok w ∧ valid w
    ∧ size_ w = size_ v + length values ∧ live w = live v ++ values.
Proof.
  induction values as [|value values IH]; intros v Hv; simpl.
  - exists v. rewrite app_nil_r. split_and!; [done | done | lia | done].
  - destruct (PushBack_live v value Hv) as (v' & -> & Hv' & _ & Hsz & Hlive). simpl.
    destruct (IH v' Hv') as (w & -> & Hw & Hsz' & Hlive').
    exists w. split_and!; [done | done | lia |].
    by rewrite Hlive', Hlive, <- app_assoc.
Qed.

(** With spare capacity a reference to a slot of the own block is read
    from that block, which is still the one the vector owns. *)
Lemma PushBack_element_spare v index :
  size_ v < capacity_ v →
  PushBack v (Element index)
  = (x ← ArrayPtr.get (items_ v) index; PushBack v (Outside x))
  ∧ PushBack_rvalue v (Element index)
    = (x ← ArrayPtr.get (items_ v) index; PushBack_rvalue v (Outside x)).
Proof.
  intros Hspare. unfold PushBack, PushBack_rvalue.
  destruct (Nat.leb_spec (capacity_ v) (size_ v)); [lia|]. simpl.
  by destruct (ArrayPtr.get (items_ v) index).
Qed.

(** On a full vector the block is replaced and released first, and the
    reference to one of its slots is read afterwards. *)
Lemma PushBack_element_full v index :
  valid v → capacity_ v ≤ size_ v →
  PushBack v (Element index) = Fail OutOfBuffer
  ∧ PushBack_rvalue v (Element index) = Fail OutOfBuffer.
Proof.
  intros Hv Hfull. split.
  - destruct Hv as [Hs Hc]. unfold PushBack, std_move.
    destruct (Nat.leb_spec (capacity_ v) (size_ v)); [|lia].
    rewrite copy_to_new_block by (unfold slots in *; lia). done.
  - unfold PushBack_rvalue.
    destruct (Nat.leb_spec (capacity_ v) (size_ v)); [|lia].
    rewrite Reserve_doubling by done. simpl.
    destruct (Nat.ltb_spec (capacity_ v) (Nat.max (capacity_ v * 2) 1)); [done | lia].
Qed.

(** *** Insert *)

Lemma Insert_assert v pos :
  pos ≤ size_ v → assert ((begin_ v <=? pos) && (pos <=? end_ v)) = Ok ().
Proof.
  intros Hp. unfold begin_, end_. simpl.
  destruct (Nat.leb_spec pos (size_ v)); [done | lia].
Qed.

(** With spare capacity, [Insert] opens a gap at [pos] and writes there. *)
Lemma Insert_spare v pos value :
  valid v → size_ v < capacity_ v → pos ≤ size_ v →
  ∃ v', Insert v pos value = Ok (pos, v')
    ∧ size_ v' = size_ v + 1 ∧ capacity_ v' = capacity_ v ∧ slots v' = slots v
    ∧ live v' = take pos (live v) ++ value :: drop pos (live v).
Proof.
  intros [Hs Hc] Hspare Hp. unfold slots in *.
  unfold Insert. rewrite Insert_assert by done. simpl.
  destruct (Nat.leb_spec (capacity_ v) (size_ v)); [lia|].
  unfold begin_, std_move_backward. simpl. rewrite Nat.sub_0_r.
  destruct (move_backward_loop_spec (items_ v) (size_ v) (size_ v - pos) (size_ v + 1))
    as (buf & -> & Hlen & Hi); [lia..|].
  simpl. rewrite set_Ok by lia. simpl.
  eexists. split; [done|]. unfold slots, live. simpl. rewrite length_insert.
  split_and!; [done..|].
  apply list_eq. intros i.
  destruct (decide (i < pos)) as [Hlt|Hge].
  - rewrite lookup_take_lt by lia. rewrite list_lookup_insert_ne by lia.
    rewrite Hi. case_decide; [lia|].
    rewrite lookup_app_l by (rewrite !length_take; lia).
    by rewrite !lookup_take_lt by lia.
  - rewrite lookup_app_r by (rewrite !length_take; lia).
    rewrite !length_take.
    replace (i - pos `min` (size_ v `min` length (items_ v))) with (i - pos) by lia.
    destruct (decide (i = pos)) as [->|Hne].
    + rewrite lookup_take_lt by lia. rewrite list_lookup_insert_eq by lia.
      by rewrite Nat.sub_diag.
    + destruct (i - pos) as [|k] eqn:Hk; [lia|]. simpl.
      rewrite lookup_drop.
      destruct (decide (i < size_ v + 1)).
      * rewrite lookup_take_lt by lia. rewrite list_lookup_insert_ne by lia.
        rewrite Hi. case_decide; [|lia].
        rewrite lookup_take_lt by lia. f_equal. lia.
      * rewrite !lookup_take_ge by lia. done.
Qed.

(** On a full vector, [Insert] grows the block and writes at [pos] without
    moving the elements from [pos] on. *)
Lemma Insert_full v pos value :
  valid v → capacity_ v ≤ size_ v → pos ≤ size_ v →
  Insert v pos value
  = Ok (pos, {| items_ := <[pos := value]> (grown_block v);
                size_ := size_ v + 1; capacity_ := grown_capacity v |}).
Proof.
  intros Hv Hfull Hp. pose proof (length_grown_block v Hv) as [Hlen _].
  pose proof (grown_capacity_gt v (proj1 Hv)) as Hgt.
  unfold Insert. rewrite Insert_assert by done. simpl.
  destruct (Nat.leb_spec (capacity_ v) (size_ v)); [|lia].
  rewrite Reserve_doubling by done. unfold begin_. simpl. rewrite Nat.sub_0_r.
  rewrite set_Ok by lia. done.
Qed.

Lemma Insert_full_live v pos value :
  valid v → capacity_ v ≤ size_ v → pos < size_ v →
  ∃ v', Insert v pos value = Ok (pos, v')
    ∧ live v' = <[pos := value]> (live v) ++ [Type_default].
Proof.
  intros Hv Hfull Hp. eexists. split; [apply Insert_full; [done | done | lia]|].
  destruct Hv as [Hs Hc]. unfold grown_block, grown_capacity, live, slots in *. simpl.
  destruct (Nat.leb_spec (capacity_ v) (size_ v)); [|lia].
  rewrite take_insert_lt by lia.
  rewrite take_app_ge by (rewrite length_take; lia).
  rewrite length_take, insert_app_l by (rewrite length_take; lia).
  f_equal. replace (size_ v + 1 - size_ v `min` length (items_ v)) with 1 by lia.
  destruct (Nat.max (capacity_ v * 2) 1 - size_ v) as [|k] eqn:Hk; [lia | done].
Qed.

(** *** Erase *)

Lemma Erase_live v pos :
  size_ v ≤ slots v → pos < size_ v →
  ∃ v', Erase v pos = Ok (pos, v')
    ∧ size_ v' = size_ v - 1 ∧ capacity_ v' = capacity_ v ∧ slots v' = slots v
    ∧ live v' = take pos (live v) ++ drop (S pos) (live v).
Proof.
  intros Hs Hp. unfold slots in *.
  unfold Erase, begin_, end_, std_move_within. simpl. rewrite Nat.sub_0_r.
  destruct (Nat.ltb_spec pos (size_ v)); [|lia]. simpl.
  destruct (move_loop_spec (items_ v) (pos + 1) (size_ v - (pos + 1)) pos)
    as (buf & -> & Hlen & Hi); [lia..|].
  simpl. eexists. split; [done|]. unfold slots, live. simpl.
  split_and!; [done..|].
  apply list_eq. intros i.
  destruct (decide (i < size_ v - 1)) as [Hlt|Hge].
  - rewrite lookup_take_lt by lia. rewrite Hi.
    destruct (decide (i < pos)).
    + case_decide; [lia|].
      rewrite lookup_app_l by (rewrite !length_take; lia).
      by rewrite !lookup_take_lt by lia.
    + case_decide; [|lia].
      rewrite lookup_app_r by (rewrite !length_take; lia).
      rewrite !length_take, lookup_drop, lookup_take_lt by lia.
      f_equal. lia.
  - rewrite lookup_take_ge by lia. symmetry. apply lookup_ge_None_2.
    rewrite length_app, length_drop, !length_take. lia.
Qed.

(** *** Resize *)

Lemma Resize_shrink v new_size :
  new_size < size_ v →
  Resize v new_size
  = Ok {| items_ := items_ v; size_ := new_size; capacity_ := capacity_ v |}.
Proof.
  intros Hn. unfold Resize.
  destruct (Nat.ltb_spec new_size (size_ v)); [done | lia].
Qed.

Lemma Resize_in_place v new_size :
  valid v → size_ v ≤ new_size → new_size ≤ capacity_ v →
  Resize v new_size
  = Ok {| items_ := live v ++ replicate (new_size - size_ v) Type_default
                           ++ drop new_size (items_ v);
          size_ := new_size; capacity_ := capacity_ v |}.
Proof.
  intros [Hs Hc] Hn Hcap. unfold Resize, slots in *.
  destruct (Nat.ltb_spec new_size (size_ v)); [lia|].
  destruct (Nat.leb_spec new_size (capacity_ v)); [|lia].
  simpl. rewrite std_fill_Ok by lia. done.
Qed.

Lemma Resize_reallocate v new_size :
  valid v → capacity_ v < new_size →
  Resize v new_size
  = Ok {| items_ := live v ++ replicate (new_size - size_ v) Type_default;
          size_ := new_size; capacity_ := new_size |}.
Proof.
  intros [Hs Hc] Hn. unfold Resize, std_move, slots in *.
  destruct (Nat.ltb_spec new_size (size_ v)); [lia|].
  destruct (Nat.leb_spec new_size (capacity_ v)); [lia|].
  rewrite copy_to_new_block by lia. fold (live v). simpl.
  assert (length (live v) = size_ v) as Hlive by (apply length_live; unfold slots; lia).
  rewrite std_fill_Ok by (rewrite ?length_app, ?length_replicate, ?Hlive; lia).
  simpl. rewrite take_app_length' by done.
  rewrite drop_ge by (rewrite length_app, length_replicate, Hlive; lia).
  by rewrite app_nil_r.
Qed.

(** *** Constructors *)

Lemma make_or_null n :
  (if 0 <? n then ArrayPtr.make n else ArrayPtr.null) = ArrayPtr.make (T:=T) n.
Proof. by destruct n. Qed.

Lemma SimpleVector_sized_Ok size :
  SimpleVector_sized size
  = Ok {| items_ := replicate size Type_default; size_ := size; capacity_ := size |}.
Proof.
  unfold SimpleVector_sized. rewrite make_or_null. unfold ArrayPtr.make.
  rewrite std_fill_Ok by (rewrite ?length_replicate; lia). simpl.
  rewrite Nat.sub_0_r, drop_ge by (rewrite length_replicate; lia).
  by rewrite app_nil_r.
Qed.

Lemma SimpleVector_filled_Ok size value :
  SimpleVector_filled size value
  = Ok {| items_ := replicate size value; size_ := size; capacity_ := size |}.
Proof.
  unfold SimpleVector_filled, ArrayPtr.make.
  rewrite std_fill_Ok by (rewrite ?length_replicate; lia). simpl.
  rewrite Nat.sub_0_r, drop_ge by (rewrite length_replicate; lia).
  by rewrite app_nil_r.
Qed.

Lemma SimpleVector_init_Ok (init : list T) :
  SimpleVector_init init
  = Ok {| items_ := init; size_ := length init; capacity_ := length init |}.
Proof.
  unfold SimpleVector_init. rewrite make_or_null.
  pose proof (copy_to_new_block init (length init) (length init)) as Hcopy.
  simpl in Hcopy. rewrite Hcopy by lia. simpl.
  by rewrite Nat.sub_diag, take_ge, app_nil_r by lia.
Qed.

(** The copy constructor allocates [size_] slots, copies the live
    elements and stores the capacity of the source. *)
Lemma SimpleVector_copy_Ok other :
  size_ other ≤ slots other →
  SimpleVector_copy other
  = Ok {| items_ := live other; size_ := size_ other; capacity_ := capacity_ other |}.
Proof.
  intros Hs. unfold SimpleVector_copy. rewrite make_or_null.
  rewrite copy_to_new_block by (unfold slots in Hs; lia). simpl.
  by rewrite Nat.sub_diag, app_nil_r.
Qed.

Lemma SimpleVector_reserve_eq (reserve : ReserveProxyObj) (fresh : nat → T) :
  SimpleVector_reserve reserve fresh
  = {| items_ := fresh <$> seq 0 (capacity reserve);
       size_ := 0; capacity_ := capacity reserve |}.
Proof. unfold SimpleVector_reserve. by destruct (capacity reserve). Qed.

Lemma exact_default : exact (T:=T) SimpleVector_default.
Proof. by unfold exact, slots. Qed.

Lemma exact_same_size (items : list T) :
  exact {| items_ := items; size_ := length items; capacity_ := length items |}.
Proof. unfold exact, slots. simpl. lia. Qed.

Lemma exact_reserve reserve (fresh : nat → T) :
  exact (SimpleVector_reserve reserve fresh).
Proof.
  rewrite SimpleVector_reserve_eq. unfold exact, slots. simpl.
  rewrite length_fmap, length_seq. lia.
Qed.

(** *** The invariants across one member call *)

Lemma Clear_keeps v : valid v → valid (Clear v) ∧ (exact v → exact (Clear v)).
Proof. unfold valid, exact, slots. simpl. lia. Qed.

Lemma Resize_keeps v new_size :
  valid v → ∃ v', Resize v new_size = Ok v' ∧ valid v' ∧ (exact v → exact v').
Proof.
  intros Hv. pose proof Hv as [Hs Hc].
  assert (length (live v) = size_ v) as Hlive by (apply length_live; unfold slots in *; lia).
  destruct (decide (new_size < size_ v)).
  { eexists. split; [by apply Resize_shrink|].
    unfold valid, exact, slots in *. simpl. lia. }
  destruct (decide (new_size ≤ capacity_ v)).
  { eexists. split; [apply Resize_in_place; [done | lia | done]|].
    unfold valid, exact, slots in *. simpl.
    rewrite !length_app, length_replicate, length_drop, Hlive. lia. }
  eexists. split; [apply Resize_reallocate; [done | lia]|].
  unfold valid, exact, slots in *. simpl.
  rewrite !length_app, length_replicate, Hlive. lia.
Qed.

Lemma Reserve_keeps v new_capacity :
  valid v → ∃ v', Reserve v new_capacity = Ok v' ∧ valid v' ∧ (exact v → exact v').
Proof.
  intros Hv. pose proof Hv as [Hs Hc].
  assert (length (live v) = size_ v) as Hlive by (apply length_live; unfold slots in *; lia).
  destruct (decide (capacity_ v < new_capacity)).
  - eexists. split; [apply Reserve_grow; unfold slots in *; lia|].
    unfold valid, exact, slots in *. simpl.
    rewrite !length_app, length_replicate, Hlive. lia.
  - exists v. split; [apply Reserve_enough; lia | done].
Qed.

Lemma PopBack_keeps v :
  valid v → 0 < size_ v → ∃ v', PopBack v = Ok v' ∧ valid v' ∧ (exact v → exact v').
Proof.
  intros [Hs Hc] Hpos. unfold PopBack.
  destruct (Nat.ltb_spec 0 (size_ v)); [|lia]. simpl.
  eexists. split; [done|]. unfold valid, exact, slots in *. simpl. lia.
Qed.

Lemma PushBack_keeps v value :
  valid v → ∃ v', PushBack v (Outside value) = Ok v' ∧ valid v' ∧ (exact v → exact v').
Proof.
  intros Hv. destruct (PushBack_live v value Hv) as (v' & ? & ? & ? & _). eauto.
Qed.

Lemma PushBack_rvalue_keeps v value :
  valid v →
  ∃ v', PushBack_rvalue v (Outside value) = Ok v' ∧ valid v' ∧ (exact v → exact v').
Proof.
  intros Hv. destruct (PushBack_live v value Hv) as (v' & Hv' & ? & ? & _).
  exists v'. rewrite PushBack_rvalue_Ok by done.
  by rewrite <- (PushBack_Ok v value Hv).
Qed.

Lemma Insert_keeps v pos value :
  valid v → pos ≤ size_ v →
  ∃ it v', Insert v pos value = Ok (it, v') ∧ valid v' ∧ (exact v → exact v').
Proof.
  intros Hv Hp. destruct (decide (capacity_ v ≤ size_ v)) as [Hfull|Hspare].
  - pose proof (length_grown_block v Hv) as [Hlen Hex].
    pose proof (grown_capacity_gt v (proj1 Hv)) as Hgt.
    eexists _, _. split; [by apply Insert_full|].
    unfold valid, exact, slots. simpl. rewrite length_insert.
    split; [lia|]. intros He. specialize (Hex He). lia.
  - destruct (Insert_spare v pos value Hv) as (v' & -> & Hsz & Hcap & Hsl & _); [lia..|].
    exists pos, v'. split; [done|]. unfold valid, exact in *. lia.
Qed.

Lemma Erase_keeps v pos :
  valid v → pos < size_ v →
  ∃ it v', Erase v pos = Ok (it, v') ∧ valid v' ∧ (exact v → exact v').
Proof.
  intros Hv Hp.
  destruct (Erase_live v pos (valid_size_slots v Hv) Hp)
    as (v' & -> & Hsz & Hcap & Hsl & _).
  exists pos, v'. split; [done|]. unfold valid, exact in *. lia.
Qed.
End member_facts.

(** * The stored size never exceeds the stored capacity

    These facts look only at the two counters, whatever the block is. *)


Section counter_facts.
Context {T : Type} `{DefaultValue T}.
Implicit Types (v other : SimpleVector T) (value : T).

Lemma Reserve_counters v new_capacity v' :
  Reserve v new_capacity = Ok v' →
  size_ v' = size_ v
  ∧ (capacity_ v' = capacity_ v ∧ new_capacity ≤ capacity_ v
     ∨ capacity_ v' = new_capacity ∧ capacity_ v < new_capacity).
Proof.
  unfold Reserve. intros Hr.
  destruct (Nat.ltb_spec (capacity_ v) new_capacity).
  - case_result Hr; simplify_eq. simpl. lia.
  - simplify_eq. lia.
Qed.

Lemma Resize_counters v new_size v' :
  size_ v ≤ capacity_ v → Resize v new_size = Ok v' → size_ v' ≤ capacity_ v'.
Proof.
  unfold Resize. intros Hs Hr.
  destruct (Nat.ltb_spec new_size (size_ v)); [simplify_eq; simpl; lia|].
  destruct (Nat.leb_spec new_size (capacity_ v));
    case_result Hr; simplify_eq; simpl; lia.
Qed.

Lemma PopBack_counters v v' :
  size_ v ≤ capacity_ v → PopBack v = Ok v' → size_ v' ≤ capacity_ v'.
Proof.
  unfold PopBack. intros Hs Hr. case_result Hr; simplify_eq. simpl. lia.
Qed.

Lemma PushBack_counters v (r : reference T) v' :
  size_ v ≤ capacity_ v → PushBack v r = Ok v' → size_ v' ≤ capacity_ v'.
Proof.
  unfold PushBack. intros Hs Hr.
  destruct (Nat.leb_spec (capacity_ v) (size_ v));
    case_result Hr; simplify_eq; simpl; lia.
Qed.

Lemma PushBack_rvalue_counters v (r : reference T) v' :
  size_ v ≤ capacity_ v → PushBack_rvalue v r = Ok v' → size_ v' ≤ capacity_ v'.
Proof.
  unfold PushBack_rvalue. intros Hs Hr.
  destruct (Nat.leb_spec (capacity_ v) (size_ v)).
  - destruct (Reserve v _) as [v1|] eqn:Hres; [|done]. simpl in Hr.
    apply Reserve_counters in Hres. case_result Hr; simplify_eq. simpl. lia.
  - case_result Hr; simplify_eq; simpl; lia.
Qed.

Lemma Insert_counters v pos value it v' :
  size_ v ≤ capacity_ v → Insert v pos value = Ok (it, v') → size_ v' ≤ capacity_ v'.
Proof.
  unfold Insert. intros Hs Hr.
  destruct (assert _); [|done]. simpl in Hr.
  destruct (Nat.leb_spec (capacity_ v) (size_ v)).
  - destruct (Reserve v _) as [v1|] eqn:Hres; [|done]. simpl in Hr.
    apply Reserve_counters in Hres. case_result Hr; simplify_eq. simpl. lia.
  - case_result Hr; simplify_eq; simpl; lia.
Qed.

Lemma Erase_counters v pos it v' :
  size_ v ≤ capacity_ v → Erase v pos = Ok (it, v') → size_ v' ≤ capacity_ v'.
Proof.
  unfold Erase. intros Hs Hr. case_result Hr; simplify_eq. simpl. lia.
Qed.

Lemma SimpleVector_copy_counters other v' :
  SimpleVector_copy other = Ok v' →
  size_ v' = size_ other ∧ capacity_ v' = capacity_ other.
Proof.
  unfold SimpleVector_copy. intros Hr. case_result Hr; simplify_eq. done.
Qed.
End counter_facts.

(** * The invariants across one public operation *)


Section store_facts.
Context {T : Type} `{DefaultValue T}.
Implicit Types (st : store T) (op : operation T) (o this rhs : object).

Lemma move_assign_distinct this rhs st :
  this ≠ rhs →
  move_assign this rhs st
  = <[rhs := {| items_ := items_ (st this); size_ := 0; capacity_ := 0 |}]>
      (<[this := {| items_ := items_ (st rhs); size_ := size_ (st rhs);
                    capacity_ := capacity_ (st rhs) |}]> st).
Proof. intros Hne. unfold move_assign. by rewrite decide_True. Qed.

Lemma move_assign_self this st : move_assign this this st = st.
Proof. unfold move_assign. by destruct (decide (this ≠ this)). Qed.

Lemma swap_objects_self this st : swap_objects this this st = st.
Proof. unfold swap_objects. by destruct (decide (this ≠ this)). Qed.

Lemma copy_assign_self this st : copy_assign this this st = Ok st.
Proof. unfold copy_assign. by destruct (decide (this ≠ this)). Qed.

Lemma swap_objects_distinct this other st :
  this ≠ other →
  swap_objects this other st
  = <[other := {| items_ := items_ (st this); size_ := size_ (st this);
                  capacity_ := capacity_ (st this) |}]>
      (<[this := {| items_ := items_ (st other); size_ := size_ (st other);
                    capacity_ := capacity_ (st other) |}]> st).
Proof. intros Hne. unfold swap_objects. by rewrite decide_True. Qed.

Lemma copy_assign_distinct this rhs st :
  this ≠ rhs →
  copy_assign this rhs st
  = (temp ← SimpleVector_copy (st rhs);
     Ok (<[this := {| items_ := items_ temp; size_ := size_ temp;
                      capacity_ := capacity_ temp |}]> st)).
Proof. intros Hne. unfold copy_assign. by rewrite decide_True. Qed.

(** The counters after one operation that completes. *)
Lemma step_counters op st st' :
  precondition op st →
  (∀ o, constructed op ≠ Some o → size_ (st o) ≤ capacity_ (st o)) →
  step op st = Ok st' → ∀ o, size_ (st' o) ≤ capacity_ (st' o).
Proof.
  intros Hpre Hinv Hstep o.
  assert (∀ this (v : SimpleVector T),
    (constructed op = Some this ∨ constructed op = None) →
    size_ v ≤ capacity_ v → size_ (<[this := v]> st o) ≤ capacity_ (<[this := v]> st o))
    as Hput.
  { intros this v Hc Hv. case_object o this; [done|].
    apply Hinv. destruct Hc as [-> | ->]; congruence. }
  destruct op; simpl in *.
  - simplify_eq. apply Hput; [by left | simpl; lia].
  - rewrite SimpleVector_sized_Ok in Hstep. simpl in Hstep. simplify_eq.
    apply Hput; [by left | simpl; lia].
  - rewrite SimpleVector_filled_Ok in Hstep. simpl in Hstep. simplify_eq.
    apply Hput; [by left | simpl; lia].
  - rewrite SimpleVector_init_Ok in Hstep. simpl in Hstep. simplify_eq.
    apply Hput; [by left | simpl; lia].
  - destruct (SimpleVector_copy (st other)) as [v|] eqn:Hcopy; [|done].
    simpl in Hstep. simplify_eq.
    apply SimpleVector_copy_counters in Hcopy as [Hsz Hcap].
    apply Hput; [by left|]. rewrite Hsz, Hcap. apply Hinv. congruence.
  - simplify_eq. case_object o this.
    + simpl. apply Hinv. congruence.
    + case_object o other; [simpl; lia|]. apply Hinv. congruence.
  - simplify_eq. apply Hput; [by left | simpl; lia].
  - destruct (decide (this = rhs)) as [->|Hne].
    { rewrite copy_assign_self in Hstep. simplify_eq. by apply Hinv. }
    rewrite copy_assign_distinct in Hstep by done.
    destruct (SimpleVector_copy (st rhs)) as [v|] eqn:Hcopy; [|done].
    simpl in Hstep. simplify_eq.
    apply SimpleVector_copy_counters in Hcopy as [Hsz Hcap].
    apply Hput; [by right|]. simpl. rewrite Hsz, Hcap. by apply Hinv.
  - simplify_eq. destruct (decide (this = rhs)) as [->|Hne].
    { rewrite move_assign_self. by apply Hinv. }
    rewrite move_assign_distinct by done.
    case_object o rhs; [simpl; lia|].
    apply Hput; [by right|]. simpl. by apply Hinv.
  - simplify_eq. apply Hput; [by right|]. simpl. lia.
  - destruct (Resize (st this) new_size) as [v|] eqn:Hres; [|done].
    simpl in Hstep. simplify_eq. apply Hput; [by right|].
    eapply Resize_counters; [|done]. by apply Hinv.
  - destruct (Reserve (st this) new_capacity) as [v|] eqn:Hres; [|done].
    simpl in Hstep. simplify_eq. apply Hput; [by right|].
    apply Reserve_counters in Hres. pose proof (Hinv this ltac:(done)). lia.
  - destruct (PopBack (st this)) as [v|] eqn:Hres; [|done].
    simpl in Hstep. simplify_eq. apply Hput; [by right|].
    eapply PopBack_counters; [|done]. by apply Hinv.
  - destruct (PushBack (st this) (Outside value)) as [v|] eqn:Hres; [|done].
    simpl in Hstep. simplify_eq. apply Hput; [by right|].
    eapply PushBack_counters; [|done]. by apply Hinv.
  - destruct (PushBack_rvalue (st this) (Outside value)) as [v|] eqn:Hres; [|done].
    simpl in Hstep. simplify_eq. apply Hput; [by right|].
    eapply PushBack_rvalue_counters; [|done]. by apply Hinv.
  - destruct (Insert (st this) pos value) as [[it v]|] eqn:Hres; [|done].
    simpl in Hstep. simplify_eq. apply Hput; [by right|].
    eapply Insert_counters; [|done]. by apply Hinv.
  - destruct (Erase (st this) pos) as [[it v]|] eqn:Hres; [|done].
    simpl in Hstep. simplify_eq. apply Hput; [by right|].
    eapply Erase_counters; [|done]. by apply Hinv.
  - simplify_eq. destruct (decide (this = other)) as [->|Hne].
    { rewrite swap_objects_self. by apply Hinv. }
    rewrite swap_objects_distinct by done.
    case_object o other; [simpl; by apply Hinv|].
    apply Hput; [by right|]. simpl. by apply Hinv.
Qed.

Lemma valid_fields (v : SimpleVector T) :
  valid v → valid {| items_ := items_ v; size_ := size_ v; capacity_ := capacity_ v |}.
Proof. done. Qed.

Lemma exact_fields (v : SimpleVector T) :
  exact v → exact {| items_ := items_ v; size_ := size_ v; capacity_ := capacity_ v |}.
Proof. done. Qed.

(** Under the class invariant and the stated preconditions every
    operation completes; unless it copies, it keeps the invariant, and it
    keeps the capacity equal to the slot count on every object except
    the source of a move assignment. *)
Lemma step_keeps op st :
  precondition op st →
  (∀ o, constructed op ≠ Some o → valid (st o)) →
  ∃ st', step op st = Ok st'
    ∧ (copies op = false →
       (∀ o, valid (st' o))
       ∧ ((∀ o, constructed op ≠ Some o → exact (st o)) →
          ∀ o, moved_from op o = false → exact (st' o))).
Proof.
  intros Hpre Hinv.
  assert (∀ this (v : SimpleVector T),
    (constructed op = Some this ∨ constructed op = None) →
    valid v →
    ((∀ o, constructed op ≠ Some o → exact (st o)) → exact v) →
    (∀ o, valid (<[this := v]> st o))
    ∧ ((∀ o, constructed op ≠ Some o → exact (st o)) →
       ∀ o, moved_from op o = false → exact (<[this := v]> st o))) as Hput.
  { intros this v Hc Hv Hex. split.
    - intros o. case_object o this; [done|].
      apply Hinv. destruct Hc as [-> | ->]; congruence.
    - intros Hall o _. case_object o this; [by apply Hex|].
      apply Hall. destruct Hc as [-> | ->]; congruence. }
  destruct op; simpl in *.
  - eexists. split; [done|]. intros _.
    apply Hput; [by left | apply exact_valid, exact_default | intros; apply exact_default].
  - rewrite SimpleVector_sized_Ok. simpl. eexists. split; [done|]. intros _.
    pose proof (exact_same_size (replicate size (Type_default (T:=T)))) as He.
    rewrite length_replicate in He.
    apply Hput; [by left | by apply exact_valid | done].
  - rewrite SimpleVector_filled_Ok. simpl. eexists. split; [done|]. intros _.
    pose proof (exact_same_size (replicate size value)) as He.
    rewrite length_replicate in He.
    apply Hput; [by left | by apply exact_valid | done].
  - rewrite SimpleVector_init_Ok. simpl. eexists. split; [done|]. intros _.
    pose proof (exact_same_size init) as He.
    apply Hput; [by left | by apply exact_valid | done].
  - rewrite SimpleVector_copy_Ok; [|apply valid_size_slots, Hinv; congruence].
    simpl. eexists. split; [done|]. done.
  - eexists. split; [done|]. intros _. split.
    + intros o. case_object o this; [apply valid_fields, Hinv; congruence|].
      case_object o other; [apply exact_valid, exact_default|].
      apply Hinv. congruence.
    + intros Hall o _. case_object o this; [apply exact_fields, Hall; congruence|].
      case_object o other; [apply exact_default|]. apply Hall. congruence.
  - eexists. split; [done|]. intros _.
    apply Hput; [by left | apply exact_valid, exact_reserve | intros; apply exact_reserve].
  - destruct (decide (this = rhs)) as [->|Hne].
    { rewrite copy_assign_self. eexists. split; done. }
    rewrite copy_assign_distinct by done.
    rewrite SimpleVector_copy_Ok by (by apply valid_size_slots, Hinv).
    simpl. eexists. split; done.
  - eexists. split; [done|]. intros _.
    destruct (decide (this = rhs)) as [->|Hne].
    { rewrite move_assign_self. split; [by intros; apply Hinv|].
      intros Hall o _. by apply Hall. }
    rewrite move_assign_distinct by done. split.
    + intros o. case_object o rhs.
      { unfold valid, slots. simpl. lia. }
      case_object o this; [by apply valid_fields, Hinv | by apply Hinv].
    + intros Hall o Hmoved. case_object o rhs.
      { rewrite bool_decide_eq_true_2, bool_decide_eq_false_2 in Hmoved; done. }
      case_object o this; [by apply exact_fields, Hall | by apply Hall].
  - eexists. split; [done|]. intros _.
    destruct (Clear_keeps (st this)) as [Hv He]; [by apply Hinv|].
    apply Hput; [by right | done | intros Hall; by apply He, Hall].
  - destruct (Resize_keeps (st this) new_size) as (v & -> & Hv & He); [by apply Hinv|].
    simpl. eexists. split; [done|]. intros _.
    apply Hput; [by right | done | intros Hall; by apply He, Hall].
  - destruct (Reserve_keeps (st this) new_capacity) as (v & -> & Hv & He);
      [by apply Hinv|].
    simpl. eexists. split; [done|]. intros _.
    apply Hput; [by right | done | intros Hall; by apply He, Hall].
  - destruct (PopBack_keeps (st this)) as (v & -> & Hv & He); [by apply Hinv | done|].
    simpl. eexists. split; [done|]. intros _.
    apply Hput; [by right | done | intros Hall; by apply He, Hall].
  - destruct (PushBack_keeps (st this) value) as (v & -> & Hv & He); [by apply Hinv|].
    simpl. eexists. split; [done|]. intros _.
    apply Hput; [by right | done | intros Hall; by apply He, Hall].
  - destruct (PushBack_rvalue_keeps (st this) value) as (v & -> & Hv & He);
      [by apply Hinv|].
    simpl. eexists. split; [done|]. intros _.
    apply Hput; [by right | done | intros Hall; by apply He, Hall].
  - destruct (Insert_keeps (st this) pos value) as (it & v & -> & Hv & He);
      [by apply Hinv | done|].
    simpl. eexists. split; [done|]. intros _.
    apply Hput; [by right | done | intros Hall; by apply He, Hall].
  - destruct (Erase_keeps (st this) pos) as (it & v & -> & Hv & He);
      [by apply Hinv | done|].
    simpl. eexists. split; [done|]. intros _.
    apply Hput; [by right | done | intros Hall; by apply He, Hall].
  - eexists. split; [done|]. intros _.
    destruct (decide (this = other)) as [->|Hne].
    { rewrite swap_objects_self.
      split; [by intros; apply Hinv|]. intros Hall o _. by apply Hall. }
    rewrite swap_objects_distinct by done. split.
    + intros o. case_object o other; [by apply valid_fields, Hinv|].
      case_object o this; [by apply valid_fields, Hinv | by apply Hinv].
    + intros Hall o _. case_object o other; [by apply exact_fields, Hall|].
      case_object o this; [by apply exact_fields, Hall | by apply Hall].
Qed.
End store_facts.

(** * The comparison operators *)

Section comparison_facts.
Context {T : Type}.
Implicit Types (a b xs ys : list T).

Lemma take_drop_cons a i n x :
  a !! i = Some x → take (S n) (drop i a) = x :: take n (drop (S i) a).
Proof. intros Hx. by rewrite (drop_S _ x) by done. Qed.

Lemma equal_loop_spec `{EqualityComparable T} a first1 n b first2 :
  first1 + n ≤ length a → first2 + n ≤ length b →
  ∃ r, equal_loop a first1 n b first2 = Ok r
    ∧ (r = true ↔ pairwise_equal (take n (drop first1 a)) (take n (drop first2 b))).
Proof.
  unfold pairwise_equal.
  revert first1 first2. induction n as [|n IH]; intros first1 first2 Ha Hb; simpl.
  - exists true. split; [done|]. split; [|done]. intros _ i x y Hx. done.
  - destruct (get_lt a first1) as (x & Hx & ->); [lia|].
    destruct (get_lt b first2) as (y & Hy & ->); [lia|]. simpl.
    rewrite (drop_S a x first1), (drop_S b y first2) by done. simpl.
    destruct (elem_eq x y) eqn:Hxy.
    + destruct (IH (S first1) (S first2)) as (r & -> & Hr); [lia..|].
      exists r. split; [done|]. rewrite Hr. split.
      * intros Hall [|i] x' y' Hx' Hy'; simpl in *; [by simplify_eq | by eapply Hall].
      * intros Hall i x' y' Hx' Hy'. by apply (Hall (S i)).
    + exists false. split; [done|]. split; [done|].
      intros Hall. specialize (Hall 0 x y eq_refl eq_refl). congruence.
Qed.

Lemma lexicographical_loop_spec `{LessThanComparable T} a first1 n1 b first2 n2 :
  first1 + n1 ≤ length a → first2 + n2 ≤ length b →
  ∃ r, lexicographical_loop a first1 n1 b first2 n2 = Ok r
    ∧ (r = true ↔ lexicographic_lt (take n1 (drop first1 a)) (take n2 (drop first2 b))).
Proof.
  revert first1 first2 n2.
  induction n1 as [|n1 IH]; intros first1 first2 n2 Ha Hb; simpl.
  - destruct n2 as [|n2].
    + exists false. split; [done|]. split; [done|]. simpl. inversion 1.
    + exists true. split; [done|]. split; [|done]. intros _.
      destruct (get_lt b first2) as (y & Hy & _); [lia|].
      rewrite (take_drop_cons b first2 n2 y) by done. constructor.
  - destruct (get_lt a first1) as (x & Hx & Hgx); [lia|].
    rewrite (drop_S a x first1) by done. simpl.
    destruct n2 as [|n2].
    + exists false. split; [done|]. split; [done|]. simpl. inversion 1.
    + rewrite Hgx. simpl.
      destruct (get_lt b first2) as (y & Hy & ->); [lia|]. simpl.
      rewrite (take_drop_cons b first2 n2 y) by done.
      destruct (elem_lt x y) eqn:Hxy.
      { exists true. split; [done|]. split; [|done]. intros _. by constructor. }
      destruct (elem_lt y x) eqn:Hyx.
      { exists false. split; [done|]. split; [done|]. inversion 1; congruence. }
      destruct (IH (S first1) (S first2) n2) as (r & -> & Hr); [lia..|].
      exists r. split; [done|]. rewrite Hr. split.
      * intros Hlt. by apply lex_tail.
      * inversion 1; simplify_eq; [congruence | done].
Qed.
End comparison_facts.

(** * The specification's properties *)

Section claims.
Context {T : Type} `{DefaultValue T}.
Implicit Types (v other : SimpleVector T) (value : T).

(** C4.  Checked access [At(index)] fails with [IndexOutOfRange] exactly
    when [index >= size], in its mutable and in its read-only form; it
    leaves the vector as it was in every case; and for [index < size] it
    gives what unchecked access [operator[]] gives at that index, which
    is the live element there. *)
Theorem At_checked_access v (index : nat) :
  ((At v index).1 = Fail IndexOutOfRange ↔ size_ v ≤ index)
  ∧ (At_const v index = Fail IndexOutOfRange ↔ size_ v ≤ index)
  ∧ (At v index).2 = v
  ∧ (index < size_ v →
     (At v index).1 = subscript v index ∧ At_const v index = subscript v index)
  ∧ (index < size_ v → size_ v ≤ slots v →
     ∃ x, live v !! index = Some x ∧ subscript v index = Ok x).
Proof.
  unfold At, At_const, subscript.
  destruct (Nat.leb_spec (size_ v) index) as [Hge|Hlt]; simpl.
  - split_and!; [done | done | done | lia | lia].
  - destruct (Nat.ltb_spec index (size_ v)); [|lia]. simpl.
    split_and!.
    + split; [|lia]. intros Hf. by apply get_not_thrown in Hf.
    + split; [|lia]. intros Hf. by apply get_not_thrown in Hf.
    + done.
    + done.
    + intros _ Hs. destruct (get_lt (items_ v) index) as (x & Hx & Hg).
      { unfold slots in Hs. lia. }
      exists x. by rewrite lookup_live.
Qed.

(** C5.  [PushBack] does not append every argument.  For an argument that
    is an object outside the vector's block it does all that is specified:
    on [size == capacity] the capacity becomes exactly
    [max(capacity * 2, 1)], the value is placed at index [size], the size
    grows by 1 and the elements before it keep their indices (both
    overloads), so pushing the values of a list in order onto an empty
    vector gives them back in order.  But the parameter is a reference, and
    it is read after the growth step has released the old block: with
    spare capacity a reference to an own element is read from the block
    and appended, while on a full vector the read is from the released
    block.  On [{1, 2}] (size 2, capacity 2), [PushBack(v[0])] does not
    place 1 at index 2. *)
Theorem PushBack_reads_argument_after_growth v (index : nat) value (values : list T) :
  valid v →
  (∃ v', PushBack v (Outside value) = Ok v' ∧ PushBack_rvalue v (Outside value) = Ok v'
     ∧ (size_ v = capacity_ v → capacity_ v' = max (capacity_ v * 2) 1)
     ∧ (size_ v < capacity_ v → capacity_ v' = capacity_ v)
     ∧ items_ v' !! size_ v = Some value
     ∧ size_ v' = size_ v + 1
     ∧ (∀ i, i < size_ v → items_ v' !! i = items_ v !! i)
     ∧ valid v')
  ∧ (∃ w, PushBack_all SimpleVector_default values = Ok w
       ∧ GetSize w = length values
       ∧ ∀ i x, values !! i = Some x → At_const w i = Ok x)
  ∧ (size_ v < capacity_ v →
     PushBack v (Element index)
     = (x ← ArrayPtr.get (items_ v) index; PushBack v (Outside x))
     ∧ PushBack_rvalue v (Element index)
       = (x ← ArrayPtr.get (items_ v) index; PushBack_rvalue v (Outside x)))
  ∧ (size_ v = capacity_ v →
     PushBack v (Element index) = Fail OutOfBuffer
     ∧ PushBack_rvalue v (Element index) = Fail OutOfBuffer)
  ∧ (v ← SimpleVector_init [1; 2]%Z; PushBack v (Element 0)) = Fail OutOfBuffer
  ∧ (v ← SimpleVector_init [1; 2]%Z; PushBack_rvalue v (Element 0)) = Fail OutOfBuffer.
Proof.
  intros Hv. split_and!; [| |by apply PushBack_element_spare
                          |intros Hfull; apply PushBack_element_full; [done | lia]
                          |reflexivity|reflexivity].
  - destruct (PushBack_live v value Hv) as (v' & Hpush & Hv' & _ & Hsz & Hlive).
    exists v'. split; [done|].
    split; [by rewrite PushBack_rvalue_Ok, <- (PushBack_Ok v value Hv)|].
    rewrite PushBack_Ok in Hpush by done. simplify_eq. simpl in *.
    pose proof (length_grown_block v Hv) as [Hlen _].
    pose proof (grown_capacity_gt v (proj1 Hv)) as Hgt.
    split_and!.
    + intros Hfull. unfold grown_capacity.
      destruct (Nat.leb_spec (capacity_ v) (size_ v)); [done | lia].
    + intros Hspare. unfold grown_capacity.
      destruct (Nat.leb_spec (capacity_ v) (size_ v)); [lia | done].
    + apply list_lookup_insert_eq. lia.
    + done.
    + intros i Hi. rewrite list_lookup_insert_ne by lia.
      rewrite <- (lookup_take_lt _ (size_ v)) by done.
      rewrite take_grown_block by done. by apply lookup_live.
    + done.
  - destruct (PushBack_all_live values SimpleVector_default) as (w & Hw & Hvw & Hsz & Hlive).
    { apply exact_valid, exact_default. }
    exists w. split; [done|]. simpl in *. split; [done|].
    intros i x Hx. pose proof (lookup_lt_Some _ _ _ Hx) as Hi.
    unfold At_const. destruct (Nat.leb_spec (size_ w) i); [lia|].
    apply get_Ok. rewrite <- lookup_live by lia. by rewrite Hlive.
Qed.
End claims.

Section claims_defects.
Context {T : Type} `{DefaultValue T}.
Implicit Types (v other : SimpleVector T) (value : T).

(** C1.  [Insert] into a full vector does not insert as specified.  For
    [size == capacity] and [index < size] it grows the block and writes
    [value] at [index] without shifting anything: the other elements of
    [[0, size)] stay at their indices, the element that was at [index] is
    lost, and the new last element, at index [size], is a default value.
    On [{1, 2, 3}] (size 3, capacity 3), [Insert(begin(), 0)] gives
    [{0, 2, 3, 0}] where the specification has [{0, 1, 2, 3}]. *)
Theorem Insert_into_full_vector_overwrites v (pos : nat) value :
  valid v → size_ v = capacity_ v → pos < size_ v →
  (∃ v', Insert v pos value = Ok (pos, v')
     ∧ size_ v' = size_ v + 1
     ∧ capacity_ v' = max (capacity_ v * 2) 1
     ∧ items_ v' !! pos = Some value
     ∧ (∀ i, i < size_ v → i ≠ pos → items_ v' !! i = items_ v !! i)
     ∧ items_ v' !! size_ v = Some Type_default)
  ∧ (v ← SimpleVector_init [1; 2; 3]%Z; Insert v 0 0%Z)
    = Ok (0, {| items_ := [0; 2; 3; 0; 0; 0]%Z; size_ := 4; capacity_ := 6 |}).
Proof.
  intros Hv Hfull Hp. split; [|reflexivity].
  pose proof (length_grown_block v Hv) as [Hlen _].
  pose proof (grown_capacity_gt v (proj1 Hv)) as Hgt.
  pose proof (take_grown_block v Hv) as Htake.
  eexists. split; [apply Insert_full; [done | lia | lia]|]. simpl.
  assert (grown_capacity v = max (capacity_ v * 2) 1) as Hcap.
  { unfold grown_capacity. destruct (Nat.leb_spec (capacity_ v) (size_ v)); [done | lia]. }
  split_and!; [done | done | | |].
  - apply list_lookup_insert_eq. lia.
  - intros i Hi Hne. rewrite list_lookup_insert_ne by done.
    rewrite <- (lookup_take_lt _ (size_ v)) by done.
    rewrite Htake. by apply lookup_live.
  - rewrite list_lookup_insert_ne by lia. unfold grown_block.
    destruct (Nat.leb_spec (capacity_ v) (size_ v)); [|lia].
    assert (length (live v) = size_ v) as Hlive.
    { apply length_live. by apply valid_size_slots. }
    rewrite lookup_app_r by lia. apply lookup_replicate_2. lia.
Qed.

(** C2.  The copy constructor does not make the capacity equal to the size
    of the source.  The copy has the source's size and live elements on a
    block of exactly [size] slots, but its stored capacity is the source's
    capacity.  Copying a vector of size 1 and capacity 4 gives stored
    capacity 4 on a block of one slot, and the next [PushBack] on the copy
    writes outside that block. *)
Theorem copy_stores_capacity_of_source other :
  size_ other ≤ slots other →
  (∃ c, SimpleVector_copy other = Ok c
     ∧ size_ c = size_ other ∧ live c = live other
     ∧ slots c = size_ other ∧ capacity_ c = capacity_ other)
  ∧ (∀ fresh : nat → Z,
     let source := PushBack (SimpleVector_reserve (ReserveProxy 4) fresh) (Outside 7%Z) in
     source = Ok {| items_ := [7%Z; fresh 1; fresh 2; fresh 3];
                    size_ := 1; capacity_ := 4 |}
     ∧ (v ← source; SimpleVector_copy v)
       = Ok {| items_ := [7]%Z; size_ := 1; capacity_ := 4 |}
     ∧ (v ← source; c ← SimpleVector_copy v; PushBack c (Outside 8%Z))
       = Fail OutOfBuffer).
Proof.
  intros Hs. split; [|intros fresh; split_and!; reflexivity].
  eexists. split; [by apply SimpleVector_copy_Ok|].
  assert (length (live other) = size_ other) as Hlive by by apply length_live.
  unfold slots, live in *. simpl. split_and!; [done | | done | done].
  rewrite take_take. f_equal. lia.
Qed.
End claims_defects.

Section claims_modifiers.
Context {T : Type} `{DefaultValue T}.
Implicit Types (v other : SimpleVector T) (value : T).

(** C6.  [Resize(new_size)] has three cases.  If [new_size < size], only
    the size changes (block and capacity are untouched).  If
    [size <= new_size <= capacity], the slots [[size, new_size)] become
    the default value, every other slot keeps its content, the size
    becomes [new_size] and the capacity is unchanged.  If
    [new_size > capacity], the block is a new one of exactly [new_size]
    slots holding the first [size] elements followed by default values,
    and size and capacity are both [new_size]. *)
Theorem Resize_three_cases v (new_size : nat) :
  valid v →
  ∃ v', Resize v new_size = Ok v' ∧ size_ v' = new_size
    ∧ (new_size < size_ v → items_ v' = items_ v ∧ capacity_ v' = capacity_ v)
    ∧ (size_ v ≤ new_size ≤ capacity_ v →
       capacity_ v' = capacity_ v ∧ slots v' = slots v
       ∧ (∀ i, i < size_ v → items_ v' !! i = items_ v !! i)
       ∧ (∀ i, size_ v ≤ i < new_size → items_ v' !! i = Some Type_default)
       ∧ (∀ i, new_size ≤ i → items_ v' !! i = items_ v !! i))
    ∧ (capacity_ v < new_size →
       capacity_ v' = new_size ∧ slots v' = new_size
       ∧ (∀ i, i < size_ v → items_ v' !! i = items_ v !! i)
       ∧ (∀ i, size_ v ≤ i < new_size → items_ v' !! i = Some Type_default)).
Proof.
  intros Hv. pose proof Hv as [Hs Hc]. unfold slots in *.
  assert (length (live v) = size_ v) as Hlive by (apply length_live; unfold slots; lia).
  destruct (decide (new_size < size_ v)) as [Hshrink|Hgrow].
  { eexists. split; [by apply Resize_shrink|]. simpl.
    split_and!; [done | done | lia | lia]. }
  destruct (decide (new_size ≤ capacity_ v)) as [Hfit|Hmore].
  - eexists. split; [apply Resize_in_place; [done | lia | done]|]. simpl.
    split_and!; [done | lia | | lia]. intros _. unfold slots. simpl.
    split_and!.
    + done.
    + rewrite !length_app, length_replicate, length_drop, Hlive. lia.
    + intros i Hi. rewrite lookup_app_l by lia. by apply lookup_live.
    + intros i Hi. rewrite lookup_app_r by lia.
      rewrite lookup_app_l by (rewrite length_replicate; lia).
      apply lookup_replicate_2. lia.
    + intros i Hi. rewrite lookup_app_r by lia.
      rewrite lookup_app_r by (rewrite length_replicate; lia).
      rewrite length_replicate, lookup_drop, Hlive. f_equal. lia.
  - eexists. split; [apply Resize_reallocate; [done | lia]|]. simpl.
    split_and!; [done | lia | lia |]. intros _. unfold slots. simpl.
    split_and!.
    + done.
    + rewrite length_app, length_replicate, Hlive. lia.
    + intros i Hi. rewrite lookup_app_l by lia. by apply lookup_live.
    + intros i Hi. rewrite lookup_app_r by lia.
      apply lookup_replicate_2. lia.
Qed.

(** C8.  For [index < size], [Erase] at that position moves the elements
    of [[index + 1, size)] one slot towards the front, leaves the
    elements before [index] alone, takes 1 off the size, keeps the
    capacity, and returns the position [index], which is the end position
    when the last element was erased. *)
Theorem Erase_shifts_left v (pos : nat) :
  size_ v ≤ slots v → pos < size_ v →
  ∃ v', Erase v pos = Ok (pos, v')
    ∧ size_ v' = size_ v - 1 ∧ capacity_ v' = capacity_ v
    ∧ (∀ i, i < pos → items_ v' !! i = items_ v !! i)
    ∧ (∀ i, pos ≤ i → i < size_ v - 1 → items_ v' !! i = items_ v !! (i + 1))
    ∧ (pos = size_ v - 1 → pos = end_ v').
Proof.
  intros Hs Hp.
  assert (length (live v) = size_ v) as Hlen by by apply length_live.
  destruct (Erase_live v pos Hs Hp) as (v' & Herase & Hsz & Hcap & Hsl & Hlive).
  unfold slots in *.
  exists v'. split_and!; [done..| | |].
  - intros i Hi. rewrite <- (lookup_live v') by lia.
    rewrite Hlive, lookup_app_l by (rewrite length_take; lia).
    rewrite lookup_take_lt by lia. apply lookup_live. lia.
  - intros i Hi Hi'. rewrite <- (lookup_live v') by lia.
    rewrite Hlive, lookup_app_r by (rewrite length_take; lia).
    rewrite length_take, lookup_drop, lookup_live by lia. f_equal. lia.
  - intros ->. unfold end_. lia.
Qed.

(** C7.  Move construction leaves the source with size 0 and capacity 0
    and gives the new vector the source's size, capacity and block, hence
    its elements in order.  Move assignment from another object does the
    same for its destination and leaves the source with size 0 and
    capacity 0; move assignment of an object to itself changes nothing. *)
Theorem move_leaves_source_empty other (st : store T) (this rhs : object) :
  (size_ (SimpleVector_move other).2 = 0
   ∧ capacity_ (SimpleVector_move other).2 = 0
   ∧ size_ (SimpleVector_move other).1 = size_ other
   ∧ capacity_ (SimpleVector_move other).1 = capacity_ other
   ∧ live (SimpleVector_move other).1 = live other)
  ∧ (this ≠ rhs →
     size_ (move_assign this rhs st rhs) = 0
     ∧ capacity_ (move_assign this rhs st rhs) = 0
     ∧ size_ (move_assign this rhs st this) = size_ (st rhs)
     ∧ capacity_ (move_assign this rhs st this) = capacity_ (st rhs)
     ∧ live (move_assign this rhs st this) = live (st rhs)
     ∧ ∀ o, o ≠ this → o ≠ rhs → move_assign this rhs st o = st o)
  ∧ move_assign this this st = st.
Proof.
  split_and!; [done..| |apply move_assign_self].
  intros Hne. rewrite move_assign_distinct by done.
  rewrite fn_lookup_insert, fn_lookup_insert_ne, fn_lookup_insert by done.
  split_and!; [done..|].
  intros o Ho Ho'. by rewrite !fn_lookup_insert_ne by done.
Qed.

(** C9.  [size <= capacity] holds of every object a constructor builds
    and is kept by every public operation that completes, under the
    operation's stated precondition; and on objects whose block has at
    least [capacity] slots the operation does complete. *)
Theorem size_le_capacity_invariant (op : operation T) (st : store T) :
  precondition op st →
  (∀ o, constructed op ≠ Some o → size_ (st o) ≤ capacity_ (st o)) →
  (∀ st', step op st = Ok st' → ∀ o, GetSize (st' o) ≤ GetCapacity (st' o))
  ∧ ((∀ o, constructed op ≠ Some o → capacity_ (st o) ≤ slots (st o)) →
     is_ok (step op st)).
Proof.
  intros Hpre Hinv. split.
  - intros st' Hstep. by eapply step_counters.
  - intros Hblock. destruct (step_keeps op st Hpre) as (st' & Hstep & _).
    { intros o Ho. split; [by apply Hinv | by apply Hblock]. }
    by exists st'.
Qed.

(** C3, amended.  After every public operation other than copy
    construction and copy assignment, on objects that satisfy
    [size <= capacity <= slots], the stored capacity is still at most the
    number of slots of the owned block and the size at most the
    capacity, so every logical index in [[0, size)] is a slot of the
    block.  Where the capacity equalled the number of slots on every
    object before, it does so after, except on the source of a move
    assignment to another object: that one is left with capacity 0 and
    owns the block the destination had. *)
Theorem capacity_within_block (op : operation T) (st : store T) :
  copies op = false → precondition op st →
  (∀ o, constructed op ≠ Some o → valid (st o)) →
  ∃ st', step op st = Ok st'
    ∧ (∀ o, size_ (st' o) ≤ capacity_ (st' o) ∧ capacity_ (st' o) ≤ slots (st' o))
    ∧ (∀ o i, i < size_ (st' o) → is_Some (items_ (st' o) !! i))
    ∧ ((∀ o, constructed op ≠ Some o → exact (st o)) →
       ∀ o, moved_from op o = false → capacity_ (st' o) = slots (st' o))
    ∧ (∀ this rhs, op = Assign_move this rhs → this ≠ rhs →
       capacity_ (st' rhs) = 0 ∧ items_ (st' rhs) = items_ (st this)).
Proof.
  intros Hcopy Hpre Hinv.
  destruct (step_keeps op st Hpre Hinv) as (st' & Hstep & Hkeep).
  destruct (Hkeep Hcopy) as [Hvalid Hexact].
  exists st'. split_and!; [done | done | | |].
  - intros o i Hi. apply lookup_lt_is_Some_2.
    destruct (Hvalid o) as [Hs Hc]. unfold slots in Hc. lia.
  - intros Hall o Hmoved. by destruct (Hexact Hall o Hmoved).
  - intros this rhs -> Hne. simpl in Hstep. simplify_eq.
    rewrite move_assign_distinct by done. by rewrite fn_lookup_insert.
Qed.
End claims_modifiers.

Section claims_comparison.
Context {T : Type} `{DefaultValue T} `{EqualityComparable T} `{LessThanComparable T}.

(** C10.  [lhs == rhs] is true exactly when the sizes are equal and the
    live elements are equal pairwise in index order; [lhs < rhs] is true
    exactly when [lhs] comes before [rhs] in the lexicographic order over
    the elements' [<], in which a proper prefix comes before its
    extension; [!=] negates [==], [>] is [<] with the operands
    exchanged, [<=] negates [>] and [>=] negates [<].  So
    [[1,2] < [1,2,3]] is true and [[1,3] < [1,2,9]] is false. *)
Theorem comparison_operators (lhs rhs : SimpleVector T) :
  size_ lhs ≤ slots lhs → size_ rhs ≤ slots rhs →
  (∃ e, op_eq lhs rhs = Ok e ∧ op_ne lhs rhs = Ok (negb e)
     ∧ (e = true ↔ GetSize lhs = GetSize rhs ∧ pairwise_equal (live lhs) (live rhs)))
  ∧ (∃ l g, op_lt lhs rhs = Ok l ∧ op_gt lhs rhs = Ok g
       ∧ op_le lhs rhs = Ok (negb g) ∧ op_ge lhs rhs = Ok (negb l)
       ∧ (l = true ↔ lexicographic_lt (live lhs) (live rhs))
       ∧ (g = true ↔ lexicographic_lt (live rhs) (live lhs)))
  ∧ (a ← SimpleVector_init [1; 2]%Z; b ← SimpleVector_init [1; 2; 3]%Z; op_lt a b)
    = Ok true
  ∧ (a ← SimpleVector_init [1; 3]%Z; b ← SimpleVector_init [1; 2; 9]%Z; op_lt a b)
    = Ok false.
Proof.
  intros Hl Hr. unfold slots in *. split_and!; [| |done..].
  - unfold op_ne, op_eq, GetSize, std_equal, cbegin, cend. simpl.
    destruct (Nat.eqb_spec (size_ lhs) (size_ rhs)) as [Heq|Hne].
    + rewrite Nat.sub_0_r.
      destruct (equal_loop_spec (items_ lhs) 0 (size_ lhs) (items_ rhs) 0)
        as (e & -> & He); [lia..|].
      exists e. split_and!; [done..|]. rewrite He. unfold live. rewrite <- Heq.
      simpl. split; [by intros ?; split | by intros [_ ?]].
    + exists false. split_and!; [done..|]. split; [done | by intros [? _]].
  - unfold op_le, op_ge, op_gt, op_lt, std_lexicographical_compare, cbegin, cend.
    simpl. rewrite !Nat.sub_0_r.
    destruct (lexicographical_loop_spec (items_ lhs) 0 (size_ lhs) (items_ rhs) 0
                (size_ rhs)) as (l & -> & Hlt); [lia..|].
    destruct (lexicographical_loop_spec (items_ rhs) 0 (size_ rhs) (items_ lhs) 0
                (size_ lhs)) as (g & -> & Hgt); [lia..|].
    exists l, g. by split_and!.
Qed.
End claims_comparison.

(** * Concrete instances *)

(** C3 does not hold as specified.  Move-assigning an empty vector (object 1) to the
    vector [{1, 2}] (object 0) leaves the source, object 1, with stored
    capacity 0 on the block of two slots the destination had; and copying a
    vector of size 3 and capacity 4 gives a copy with stored capacity 4 on
    a block of three slots.  Before each operation the capacity of every
    object is the number of slots of its block. *)
Lemma capacity_differs_from_slots :
  (∀ o, exact (sample_store o))
  ∧ (∃ st', step (Assign_move 0 1) sample_store = Ok st'
       ∧ capacity_ (st' 1) = 0 ∧ slots (st' 1) = 2
       ∧ capacity_ (st' 1) ≠ slots (st' 1))
  ∧ (∀ o, exact (<[0 := sample]> sample_store o))
  ∧ (∃ st', step (New_copy 1 0) (<[0 := sample]> sample_store) = Ok st'
       ∧ capacity_ (st' 1) = 4 ∧ slots (st' 1) = 3
       ∧ capacity_ (st' 1) ≠ slots (st' 1)).
Proof.
  split_and!.
  - intros [|o]; vm_compute; lia.
  - eexists. split; [reflexivity|]. vm_compute. split_and!; [done | done | lia].
  - intros [|o]; vm_compute; lia.
  - eexists. split; [reflexivity|]. vm_compute. split_and!; [done | done | lia].
Qed.

Lemma capacity_within_block_witness :
  copies (Call_PushBack 0 5%Z) = false
  ∧ precondition (Call_PushBack 0 5%Z) sample_store
  ∧ (∀ o, constructed (Call_PushBack 0 5%Z) ≠ Some o → valid (sample_store o))
  ∧ ∃ st', step (Call_PushBack 0 5%Z) sample_store = Ok st'
      ∧ (∀ o, size_ (st' o) ≤ capacity_ (st' o) ∧ capacity_ (st' o) ≤ slots (st' o))
      ∧ (∀ o i, i < size_ (st' o) → is_Some (items_ (st' o) !! i))
      ∧ ((∀ o, constructed (Call_PushBack 0 5%Z) ≠ Some o → exact (sample_store o)) →
         ∀ o, moved_from (Call_PushBack 0 5%Z) o = false →
              capacity_ (st' o) = slots (st' o))
      ∧ (∀ this rhs, Call_PushBack 0 5%Z = Assign_move this rhs → this ≠ rhs →
         capacity_ (st' rhs) = 0 ∧ items_ (st' rhs) = items_ (sample_store this)).
Proof.
  assert (∀ o, constructed (Call_PushBack 0 5%Z) ≠ Some o → valid (sample_store o)) as Hv.
  { intros [|o] _; vm_compute; lia. }
  split_and!; [reflexivity | exact I | exact Hv |].
  apply (capacity_within_block (Call_PushBack 0 5%Z) sample_store);
    [reflexivity | exact I | exact Hv].
Defined.

Lemma At_checked_access_witness :
  1 < size_ sample ∧ size_ sample ≤ slots sample
  ∧ (At sample 1).1 = subscript sample 1
  ∧ At_const sample 1 = subscript sample 1
  ∧ ∃ x, live sample !! 1 = Some x ∧ subscript sample 1 = Ok x.
Proof.
  assert (1 < size_ sample) as Hlt by (vm_compute; lia).
  assert (size_ sample ≤ slots sample) as Hs by (vm_compute; lia).
  destruct (At_checked_access sample 1) as (_ & _ & _ & Hsame & Hlive).
  split_and!; [exact Hlt | exact Hs | apply Hsame, Hlt | apply Hsame, Hlt
               | apply Hlive; [exact Hlt | exact Hs]].
Defined.

Lemma PushBack_reads_argument_after_growth_witness :
  valid sample_full
  ∧ (∃ v', PushBack sample_full (Outside 3%Z) = Ok v'
       ∧ PushBack_rvalue sample_full (Outside 3%Z) = Ok v'
       ∧ (size_ sample_full = capacity_ sample_full →
          capacity_ v' = max (capacity_ sample_full * 2) 1)
       ∧ (size_ sample_full < capacity_ sample_full →
          capacity_ v' = capacity_ sample_full)
       ∧ items_ v' !! size_ sample_full = Some 3%Z
       ∧ size_ v' = size_ sample_full + 1
       ∧ (∀ i, i < size_ sample_full → items_ v' !! i = items_ sample_full !! i)
       ∧ valid v')
  ∧ (∃ w, PushBack_all SimpleVector_default [4; 5; 6]%Z = Ok w
       ∧ GetSize w = length [4; 5; 6]%Z
       ∧ ∀ i x, [4; 5; 6]%Z !! i = Some x → At_const w i = Ok x)
  ∧ size_ sample_full = capacity_ sample_full
  ∧ PushBack sample_full (Element 0) = Fail OutOfBuffer
  ∧ PushBack_rvalue sample_full (Element 0) = Fail OutOfBuffer.
Proof.
  assert (valid sample_full) as Hv by (vm_compute; lia).
  assert (size_ sample_full = capacity_ sample_full) as Hfull by reflexivity.
  destruct (PushBack_reads_argument_after_growth sample_full 0 3%Z [4; 5; 6]%Z Hv)
    as (Hpush & Hall & _ & Hdangling & _).
  split_and!; [exact Hv | exact Hpush | exact Hall | exact Hfull
               | apply (Hdangling Hfull) | apply (Hdangling Hfull)].
Defined.

Lemma Resize_three_cases_witness :
  valid sample
  ∧ ∃ v', Resize sample 6 = Ok v' ∧ size_ v' = 6
      ∧ (6 < size_ sample → items_ v' = items_ sample ∧ capacity_ v' = capacity_ sample)
      ∧ (size_ sample ≤ 6 ≤ capacity_ sample →
         capacity_ v' = capacity_ sample ∧ slots v' = slots sample
         ∧ (∀ i, i < size_ sample → items_ v' !! i = items_ sample !! i)
         ∧ (∀ i, size_ sample ≤ i < 6 → items_ v' !! i = Some Type_default)
         ∧ (∀ i, 6 ≤ i → items_ v' !! i = items_ sample !! i))
      ∧ (capacity_ sample < 6 →
         capacity_ v' = 6 ∧ slots v' = 6
         ∧ (∀ i, i < size_ sample → items_ v' !! i = items_ sample !! i)
         ∧ (∀ i, size_ sample ≤ i < 6 → items_ v' !! i = Some Type_default)).
Proof.
  assert (valid sample) as Hv by (vm_compute; lia).
  split; [exact Hv|]. apply (Resize_three_cases sample 6 Hv).
Defined.

Lemma Erase_shifts_left_witness :
  size_ sample ≤ slots sample ∧ 1 < size_ sample
  ∧ ∃ v', Erase sample 1 = Ok (1, v')
      ∧ size_ v' = size_ sample - 1 ∧ capacity_ v' = capacity_ sample
      ∧ (∀ i, i < 1 → items_ v' !! i = items_ sample !! i)
      ∧ (∀ i, 1 ≤ i → i < size_ sample - 1 → items_ v' !! i = items_ sample !! (i + 1))
      ∧ (1 = size_ sample - 1 → 1 = end_ v').
Proof.
  assert (size_ sample ≤ slots sample) as Hs by (vm_compute; lia).
  assert (1 < size_ sample) as Hp by (vm_compute; lia).
  split_and!; [exact Hs | exact Hp |]. apply (Erase_shifts_left sample 1 Hs Hp).
Defined.

Lemma move_leaves_source_empty_witness :
  1 ≠ 0
  ∧ (size_ (SimpleVector_move sample).2 = 0
     ∧ capacity_ (SimpleVector_move sample).2 = 0
     ∧ size_ (SimpleVector_move sample).1 = size_ sample
     ∧ capacity_ (SimpleVector_move sample).1 = capacity_ sample
     ∧ live (SimpleVector_move sample).1 = live sample)
  ∧ (size_ (move_assign 1 0 sample_store 0) = 0
     ∧ capacity_ (move_assign 1 0 sample_store 0) = 0
     ∧ size_ (move_assign 1 0 sample_store 1) = size_ (sample_store 0)
     ∧ capacity_ (move_assign 1 0 sample_store 1) = capacity_ (sample_store 0)
     ∧ live (move_assign 1 0 sample_store 1) = live (sample_store 0)
     ∧ ∀ o, o ≠ 1 → o ≠ 0 → move_assign 1 0 sample_store o = sample_store o)
  ∧ move_assign 1 1 sample_store = sample_store
  ∧ live sample = [1; 2; 3]%Z ∧ live (sample_store 0) = [1; 2]%Z.
Proof.
  assert (1 ≠ 0) as Hne by lia.
  destruct (move_leaves_source_empty sample sample_store 1 0) as (Hctor & Hassign & _).
  destruct (move_leaves_source_empty sample sample_store 1 1) as (_ & _ & Hself).
  exact (conj Hne (conj Hctor (conj (Hassign Hne) (conj Hself (conj eq_refl eq_refl))))).
Defined.

Lemma size_le_capacity_invariant_witness :
  precondition (@Call_Erase Z 0 1) sample_store
  ∧ (∀ o, constructed (@Call_Erase Z 0 1) ≠ Some o →
          size_ (sample_store o) ≤ capacity_ (sample_store o))
  ∧ (∀ st', step (@Call_Erase Z 0 1) sample_store = Ok st' →
            ∀ o, GetSize (st' o) ≤ GetCapacity (st' o))
  ∧ ((∀ o, constructed (@Call_Erase Z 0 1) ≠ Some o →
           capacity_ (sample_store o) ≤ slots (sample_store o)) →
     is_ok (step (@Call_Erase Z 0 1) sample_store)).
Proof.
  assert (precondition (@Call_Erase Z 0 1) sample_store) as Hpre by (vm_compute; lia).
  assert (∀ o, constructed (@Call_Erase Z 0 1) ≠ Some o →
               size_ (sample_store o) ≤ capacity_ (sample_store o)) as Hinv.
  { intros [|o] _; vm_compute; lia. }
  split_and!; [exact Hpre | exact Hinv | |];
    apply (size_le_capacity_invariant (@Call_Erase Z 0 1) sample_store Hpre Hinv).
Defined.

Lemma comparison_operators_witness :
  size_ sample_full ≤ slots sample_full ∧ size_ sample ≤ slots sample
  ∧ (∃ e, op_eq sample_full sample = Ok e ∧ op_ne sample_full sample = Ok (negb e)
       ∧ (e = true ↔ GetSize sample_full = GetSize sample
                     ∧ pairwise_equal (live sample_full) (live sample)))
  ∧ (∃ l g, op_lt sample_full sample = Ok l ∧ op_gt sample_full sample = Ok g
       ∧ op_le sample_full sample = Ok (negb g) ∧ op_ge sample_full sample = Ok (negb l)
       ∧ (l = true ↔ lexicographic_lt (live sample_full) (live sample))
       ∧ (g = true ↔ lexicographic_lt (live sample) (live sample_full))).
Proof.
  assert (size_ sample_full ≤ slots sample_full) as Hl by (vm_compute; lia).
  assert (size_ sample ≤ slots sample) as Hr by (vm_compute; lia).
  destruct (comparison_operators sample_full sample Hl Hr) as (Heq & Hlt & _).
  split_and!; [exact Hl | exact Hr | exact Heq | exact Hlt].
Defined.

Lemma Insert_into_full_vector_overwrites_witness :
  valid sample_full ∧ size_ sample_full = capacity_ sample_full ∧ 0 < size_ sample_full
  ∧ ∃ v', Insert sample_full 0 9%Z = Ok (0, v')
      ∧ size_ v' = size_ sample_full + 1
      ∧ capacity_ v' = max (capacity_ sample_full * 2) 1
      ∧ items_ v' !! 0 = Some 9%Z
      ∧ (∀ i, i < size_ sample_full → i ≠ 0 → items_ v' !! i = items_ sample_full !! i)
      ∧ items_ v' !! size_ sample_full = Some Type_default.
Proof.
  assert (valid sample_full) as Hv by (vm_compute; lia).
  assert (size_ sample_full = capacity_ sample_full) as Hfull by reflexivity.
  assert (0 < size_ sample_full) as Hp by (vm_compute; lia).
  split_and!; [exact Hv | exact Hfull | exact Hp |].
  apply (proj1 (Insert_into_full_vector_overwrites sample_full 0 9%Z Hv Hfull Hp)).
Defined.

Lemma copy_stores_capacity_of_source_witness :
  size_ sample ≤ slots sample
  ∧ ∃ c, SimpleVector_copy sample = Ok c
      ∧ size_ c = size_ sample ∧ live c = live sample
      ∧ slots c = size_ sample ∧ capacity_ c = capacity_ sample.
Proof.
  assert (size_ sample ≤ slots sample) as Hs by (vm_compute; lia).
  split; [exact Hs|].
  apply (proj1 (copy_stores_capacity_of_source sample Hs)).
Defined.

(** The end-to-end scenario of the spec: [{1,2,3}], [PushBack(4)],
    [Erase(begin() + 1)], [Insert(begin(), 0)], [Resize(2)]. *)
Example end_to_end :
  ∃ v1 v2 v3 v4 v5,
    SimpleVector_init [1; 2; 3]%Z = Ok v1
    ∧ PushBack v1 (Outside 4%Z) = Ok v2 ∧ live v2 = [1; 2; 3; 4]%Z
    ∧ Erase v2 (begin_ v2 + 1) = Ok (1, v3) ∧ live v3 = [1; 3; 4]%Z
    ∧ Insert v3 (begin_ v3) 0%Z = Ok (0, v4) ∧ live v4 = [0; 1; 3; 4]%Z
    ∧ Resize v4 2 = Ok v5 ∧ live v5 = [0; 1]%Z
    ∧ Forall (λ v, GetSize v ≤ GetCapacity v) [v1; v2; v3; v4; v5].
Proof.
  do 5 eexists. split_and!; [reflexivity..|].
  repeat constructor; vm_compute; lia.
Qed.


(** * Further properties of the constructors and member functions *)

Section construction_properties.
Context {T : Type} `{DefaultValue T}.
Implicit Types (v : SimpleVector T) (value : T).

Lemma live_whole_block (items : list T) c :
  live {| items_ := items; size_ := length items; capacity_ := c |} = items.
Proof. unfold live. simpl. by rewrite take_ge. Qed.

(** X1.  [SimpleVector(size, value)] builds [size] copies of [value] with
    capacity [size]; for [size == 0] it is the default-constructed vector;
    and [SimpleVector(size)] is [SimpleVector(size, Type{})]. *)
Theorem filled_constructor_contents (size : nat) value :
  (∃ v, SimpleVector_filled size value = Ok v
     ∧ GetSize v = size ∧ GetCapacity v = size ∧ slots v = size
     ∧ live v = replicate size value)
  ∧ SimpleVector_filled 0 value = Ok SimpleVector_default
  ∧ SimpleVector_sized size = SimpleVector_filled size Type_default.
Proof.
  rewrite SimpleVector_sized_Ok, !SimpleVector_filled_Ok. split_and!; [|done..].
  eexists. split; [done|]. unfold GetSize, GetCapacity, slots, live. simpl.
  rewrite length_replicate, take_ge by (rewrite length_replicate; lia). done.
Qed.

(** X2.  [SimpleVector(std::initializer_list)] holds the elements of the
    list in order, with size and capacity equal to its length: checked
    access gives the list's element at every index of the list and throws
    beyond it. *)
Theorem init_list_constructor_contents (init : list T) :
  ∃ v, SimpleVector_init init = Ok v
    ∧ GetSize v = length init ∧ GetCapacity v = length init
    ∧ live v = init
    ∧ (∀ i x, init !! i = Some x → At_const v i = Ok x)
    ∧ (∀ i, length init ≤ i → At_const v i = Fail IndexOutOfRange).
Proof.
  rewrite SimpleVector_init_Ok. eexists. split; [done|].
  split_and!; [done | done | apply live_whole_block | |].
  - intros i x Hx. pose proof (lookup_lt_Some _ _ _ Hx) as Hi.
    unfold At_const. simpl. destruct (Nat.leb_spec (length init) i); [lia|].
    by apply get_Ok.
  - intros i Hi. unfold At_const. simpl.
    destruct (Nat.leb_spec (length init) i); [done | lia].
Qed.

(** One [PushBack] with spare capacity writes into the block in place. *)
Lemma PushBack_spare v value :
  valid v → size_ v < capacity_ v →
  PushBack v (Outside value)
  = Ok {| items_ := <[size_ v := value]> (items_ v);
          size_ := size_ v + 1; capacity_ := capacity_ v |}.
Proof.
  intros Hv Hspare. rewrite PushBack_Ok by done.
  unfold grown_block, grown_capacity.
  destruct (Nat.leb_spec (capacity_ v) (size_ v)); [lia | done].
Qed.

Lemma PushBack_all_spare (values : list T) : ∀ v,
  valid v → size_ v + length values ≤ capacity_ v →
  ∃ w, PushBack_all v values = Ok w ∧ valid w
    ∧ capacity_ w = capacity_ v ∧ slots w = slots v
    ∧ size_ w = size_ v + length values ∧ live w = live v ++ values.
Proof.
  induction values as [|value values IH]; intros v Hv Hroom; simpl in *.
  - exists v. rewrite app_nil_r. split_and!; [done.. | lia | done].
  - rewrite PushBack_spare by (done || lia). simpl.
    destruct Hv as [Hs Hc]. unfold slots in *.
    destruct (IH {| items_ := <[size_ v := value]> (items_ v);
                    size_ := size_ v + 1; capacity_ := capacity_ v |})
      as (w & -> & Hw & Hcap & Hsl & Hsz & Hlive).
    { unfold valid, slots. simpl. rewrite length_insert. lia. }
    { simpl. lia. }
    exists w. unfold slots, live in *. simpl in *. rewrite length_insert in Hsl.
    split_and!; [done | done | done | done | lia |].
    rewrite Hlive. replace (size_ v + 1) with (S (size_ v)) by lia.
    rewrite take_S_insert by lia. by rewrite <- app_assoc.
Qed.

(** X3.  While the values fit into the stored capacity, a run of
    [PushBack] calls never reallocates: capacity and block size stay as
    they were and the values are appended in order. *)
Theorem PushBack_within_capacity v (values : list T) :
  valid v → size_ v + length values ≤ capacity_ v →
  ∃ w, PushBack_all v values = Ok w
    ∧ GetCapacity w = GetCapacity v ∧ slots w = slots v
    ∧ GetSize w = GetSize v + length values ∧ live w = live v ++ values.
Proof.
  intros Hv Hroom.
  destruct (PushBack_all_spare values v Hv Hroom) as (w & ? & _ & ? & ? & ? & ?).
  by exists w.
Qed.

(** X4.  A vector built from [Reserve(n)] is empty with capacity [n], and
    pushing at most [n] values onto it keeps the capacity at [n]. *)
Theorem reserved_vector_takes_pushes (n : nat) (fresh : nat → T) (values : list T) :
  length values ≤ n →
  IsEmpty (SimpleVector_reserve (ReserveProxy n) fresh) = true
  ∧ GetCapacity (SimpleVector_reserve (ReserveProxy n) fresh) = n
  ∧ ∃ w, PushBack_all (SimpleVector_reserve (ReserveProxy n) fresh) values = Ok w
      ∧ GetSize w = length values ∧ GetCapacity w = n ∧ slots w = n
      ∧ live w = values.
Proof.
  intros Hn. split_and!; [done..|].
  pose proof (exact_reserve (ReserveProxy n) fresh) as He.
  destruct (PushBack_all_spare values (SimpleVector_reserve (ReserveProxy n) fresh))
    as (w & Hw & _ & Hcap & Hsl & Hsz & Hlive).
  { by apply exact_valid. } { simpl. lia. }
  exists w. destruct He as [_ Hex]. simpl in *.
  split_and!; [done | done | done | congruence | done].
Qed.

(** The doubling policy along a run of [PushBack] calls: the capacity is
    0 on the empty default-constructed vector and otherwise a power of two
    with [size <= capacity < 2 * size]. *)
Lemma PushBack_all_doubling (values : list T) : ∀ v,
  valid v →
  (size_ v = 0 ∧ capacity_ v = 0)
  ∨ (∃ k, capacity_ v = 2 ^ k) ∧ capacity_ v < 2 * size_ v →
  ∃ w, PushBack_all v values = Ok w ∧ size_ w = size_ v + length values
    ∧ ((size_ w = 0 ∧ capacity_ w = 0)
       ∨ (∃ k, capacity_ w = 2 ^ k) ∧ size_ w ≤ capacity_ w < 2 * size_ w).
Proof.
  induction values as [|value values IH]; intros v Hv Hd; simpl.
  - exists v. split_and!; [done | lia |]. destruct Hv as [Hs _].
    destruct Hd as [?|[? ?]]; [by left | right; split; [done | lia]].
  - destruct (PushBack_live v value Hv) as (v' & Hpush & Hv' & _ & Hsz & _).
    rewrite Hpush. simpl.
    rewrite PushBack_Ok in Hpush by done. simplify_eq. simpl in *.
    edestruct IH as (w & -> & Hszw & Hw); [exact Hv' | | ].
    + right. simpl. unfold grown_capacity. destruct Hv as [Hs _].
      destruct (Nat.leb_spec (capacity_ v) (size_ v)).
      * destruct Hd as [[Hz Hc0]|[[k Hk] Hlt]].
        { rewrite Hc0. split; [by exists 0 | simpl; lia]. }
        split; [exists (S k); rewrite Nat.pow_succ_r'; lia | lia].
      * destruct Hd as [[Hz Hc0]|[Hk Hlt]]; [lia|]. split; [done | lia].
    + exists w. simpl in *. split_and!; [done | lia | done].
Qed.

(** X5.  Pushing [N >= 1] values onto a default-constructed vector leaves
    a capacity that is a power of two with [N <= capacity < 2 * N]: growth
    by doubling never holds more than twice the slots in use. *)
Theorem PushBack_capacity_bound (values : list T) :
  values ≠ [] →
  ∃ w, PushBack_all SimpleVector_default values = Ok w
    ∧ GetSize w = length values
    ∧ length values ≤ GetCapacity w < 2 * length values
    ∧ ∃ k, GetCapacity w = 2 ^ k.
Proof.
  intros Hne.
  destruct (PushBack_all_doubling values SimpleVector_default)
    as (w & Hw & Hsz & Hd).
  { apply exact_valid, exact_default. } { by left. }
  exists w. simpl in Hsz. unfold GetSize, GetCapacity.
  assert (0 < length values) by (destruct values; [done | simpl; lia]).
  destruct Hd as [[? ?]|[Hk ?]]; [lia|]. split_and!; [done | lia.. | done].
Qed.
End construction_properties.

Section resizing_properties.
Context {T : Type} `{DefaultValue T}.
Implicit Types (v : SimpleVector T) (value : T).

(** X6.  [Resize(0)] does what [Clear()] does, on every vector: the size
    becomes 0 while the block and the stored capacity are kept. *)
Theorem Resize_to_zero_is_Clear v :
  Resize v 0 = Ok (Clear v)
  ∧ IsEmpty (Clear v) = true
  ∧ GetCapacity (Clear v) = GetCapacity v
  ∧ items_ (Clear v) = items_ v.
Proof.
  split_and!; [|done..]. unfold Resize, Clear, std_fill.
  destruct (Nat.ltb_spec 0 (size_ v)) as [Hpos|Hzero]; [done|].
  simpl. by replace (size_ v) with 0 by lia.
Qed.

(** [Resize] as one equation on the live elements. *)
Lemma Resize_live v new_size :
  valid v →
  ∃ v', Resize v new_size = Ok v' ∧ valid v' ∧ size_ v' = new_size
    ∧ capacity_ v' = max (capacity_ v) new_size
    ∧ live v' = take new_size (live v) ++ replicate (new_size - size_ v) Type_default.
Proof.
  intros Hv. destruct (Resize_keeps v new_size Hv) as (v' & Hres & Hv' & _).
  exists v'. split; [done|]. split; [done|]. pose proof Hv as [Hs Hc].
  assert (length (live v) = size_ v) as Hlen by (apply length_live; unfold slots in *; lia).
  unfold slots in *.
  destruct (decide (new_size < size_ v)) as [Hshrink|Hgrow].
  { rewrite Resize_shrink in Hres by done. simplify_eq. unfold live. simpl.
    split_and!; [done | lia |].
    rewrite take_take. replace (new_size - size_ v) with 0 by lia.
    simpl. rewrite app_nil_r. f_equal. lia. }
  rewrite (take_ge (live v)) by lia.
  destruct (decide (new_size ≤ capacity_ v)) as [Hfit|Hmore].
  - rewrite Resize_in_place in Hres by (done || lia). simplify_eq.
    split_and!; [done | simpl; lia |]. unfold live at 1. simpl.
    rewrite app_assoc, take_app_length'; [done|].
    rewrite length_app, length_replicate. lia.
  - rewrite Resize_reallocate in Hres by (done || lia). simplify_eq.
    split_and!; [done | simpl; lia |]. unfold live at 1. simpl.
    rewrite take_ge; [done|]. rewrite length_app, length_replicate. lia.
Qed.

(** X7.  [Resize(new_size)] keeps the first [min(size, new_size)] elements
    and pads with default values up to [new_size]; the capacity becomes
    [max(capacity, new_size)], so [Resize] never lowers it. *)
Theorem Resize_truncates_or_pads v (new_size : nat) :
  valid v →
  ∃ v', Resize v new_size = Ok v' ∧ GetSize v' = new_size
    ∧ GetCapacity v' = max (GetCapacity v) new_size
    ∧ live v' = take new_size (live v) ++ replicate (new_size - size_ v) Type_default.
Proof.
  intros Hv. destruct (Resize_live v new_size Hv) as (v' & ? & _ & ? & ? & ?).
  by exists v'.
Qed.

(** X8.  Shrinking to [k] and growing again to [j] does not bring the old
    elements back: the result is the first [k] elements followed by
    [j - k] default values, whatever stood at the indices [[k, j)]
    before. *)
Theorem Resize_shrink_then_grow v (k j : nat) :
  valid v → k ≤ size_ v → k ≤ j →
  ∃ v1 v2, Resize v k = Ok v1 ∧ Resize v1 j = Ok v2
    ∧ live v2 = take k (live v) ++ replicate (j - k) Type_default.
Proof.
  intros Hv Hk Hj.
  destruct (Resize_live v k Hv) as (v1 & Hr1 & Hv1 & Hsz1 & _ & Hlive1).
  destruct (Resize_live v1 j Hv1) as (v2 & Hr2 & _ & _ & _ & Hlive2).
  exists v1, v2. split_and!; [done..|].
  assert (length (live v) = size_ v) as Hlen by by apply length_live, valid_size_slots.
  replace (k - size_ v) with 0 in Hlive1 by lia. simpl in Hlive1.
  rewrite app_nil_r in Hlive1. rewrite Hlive2, Hlive1, Hsz1.
  rewrite take_ge; [done|]. rewrite length_take. lia.
Qed.

(** X9.  [Reserve(new_capacity)] keeps the size and the live elements and
    makes the capacity [max(capacity, new_capacity)]: it never shrinks,
    and calling it again with the same argument changes nothing. *)
Theorem Reserve_keeps_elements v (new_capacity : nat) :
  valid v →
  ∃ v', Reserve v new_capacity = Ok v'
    ∧ GetSize v' = GetSize v ∧ live v' = live v
    ∧ GetCapacity v' = max (GetCapacity v) new_capacity
    ∧ Reserve v' new_capacity = Ok v'.
Proof.
  intros Hv. pose proof Hv as [Hs Hc]. unfold GetSize, GetCapacity, slots in *.
  assert (length (live v) = size_ v) as Hlen by (apply length_live; unfold slots; lia).
  destruct (decide (capacity_ v < new_capacity)) as [Hgrow|Henough].
  - eexists. split; [apply Reserve_grow; unfold slots; lia|]. simpl.
    split_and!; [done | | lia | by apply Reserve_enough].
    unfold live at 1. simpl. by rewrite take_app_length'.
  - exists v. rewrite Reserve_enough by lia. split_and!; [done | done | done | lia | done].
Qed.

(** X10.  [PopBack] undoes [PushBack]: the size and the live elements are
    those before the push (the capacity may have grown). *)
Theorem PopBack_undoes_PushBack v value :
  valid v →
  ∃ v1 v2, PushBack v (Outside value) = Ok v1 ∧ PopBack v1 = Ok v2
    ∧ GetSize v2 = GetSize v ∧ live v2 = live v
    ∧ GetCapacity v2 = GetCapacity v1.
Proof.
  intros Hv. destruct (PushBack_live v value Hv) as (v1 & Hpush & Hv1 & _ & Hsz & Hlive).
  assert (length (live v) = size_ v) as Hlen by by apply length_live, valid_size_slots.
  exists v1. unfold PopBack. destruct (Nat.ltb_spec 0 (size_ v1)); [|lia]. simpl.
  eexists. split_and!; [done | done | | | done].
  - unfold GetSize. simpl. lia.
  - unfold live at 1. simpl. replace (size_ v1 - 1) with (size_ v) by lia.
    assert (take (size_ v) (items_ v1) = take (size_ v) (live v1)) as ->.
    { unfold live. rewrite take_take. f_equal. lia. }
    by rewrite Hlive, take_app_length'.
Qed.
End resizing_properties.

Section insertion_properties.
Context {T : Type} `{DefaultValue T}.
Implicit Types (v : SimpleVector T) (value : T).

(** X11.  With spare capacity ([size < capacity]) [Insert] at an index of
    [[0, size]] works in place: the value is at that index, the elements
    before it are unchanged, the elements of [[index, size)] are one slot
    further, the size grows by 1, capacity and block size are unchanged,
    and the returned position is the index. *)
Theorem Insert_with_spare_capacity v (pos : nat) value :
  valid v → size_ v < capacity_ v → pos ≤ size_ v →
  ∃ v', Insert v pos value = Ok (pos, v')
    ∧ GetSize v' = GetSize v + 1 ∧ GetCapacity v' = GetCapacity v ∧ slots v' = slots v
    ∧ items_ v' !! pos = Some value
    ∧ (∀ i, i < pos → items_ v' !! i = items_ v !! i)
    ∧ (∀ i, pos ≤ i → i < size_ v → items_ v' !! (i + 1) = items_ v !! i).
Proof.
  intros Hv Hspare Hp.
  destruct (Insert_spare v pos value Hv Hspare Hp) as (v' & Hins & Hsz & Hcap & Hsl & Hlive).
  assert (length (live v) = size_ v) as Hlen by by apply length_live, valid_size_slots.
  exists v'. split_and!; [done..| | |].
  - rewrite <- (lookup_live v') by lia. rewrite Hlive.
    rewrite lookup_app_r by (rewrite length_take; lia).
    rewrite length_take. by replace (pos - pos `min` length (live v)) with 0 by lia.
  - intros i Hi. rewrite <- (lookup_live v') by lia. rewrite Hlive.
    rewrite lookup_app_l by (rewrite length_take; lia).
    rewrite lookup_take_lt by done. apply lookup_live. lia.
  - intros i Hi Hi'. rewrite <- (lookup_live v') by lia. rewrite Hlive.
    rewrite lookup_app_r by (rewrite length_take; lia).
    rewrite length_take.
    replace (i + 1 - pos `min` length (live v)) with (S (i - pos)) by lia.
    simpl. rewrite lookup_drop, lookup_live by lia. f_equal. lia.
Qed.

(** X12.  [Insert] at the end position is [PushBack] for an argument that
    is an object outside the vector's block: [Insert(end(), value)] then
    has the outcome of [PushBack(Type&&)] and returns the old end
    position.  For an element of a full vector they differ: [Insert],
    which takes its argument by value, appends it, while
    [PushBack(Type&&)] reads it from the block [Reserve] released. *)
Theorem Insert_at_end_is_PushBack v (index : nat) value :
  Insert v (end_ v) value
  = (λ v', (end_ v, v')) <$> PushBack_rvalue v (Outside value)
  ∧ (valid v → size_ v = capacity_ v → items_ v !! index = Some value →
     (∃ v', Insert v (end_ v) value = Ok (end_ v, v')
        ∧ live v' = live v ++ [value])
     ∧ PushBack_rvalue v (Element index) = Fail OutOfBuffer).
Proof.
  assert (Insert v (end_ v) value
          = (λ v', (end_ v, v')) <$> PushBack_rvalue v (Outside value)) as Hsame.
  { unfold Insert, PushBack_rvalue. rewrite Insert_assert by (unfold end_; lia).
    unfold end_, begin_. simpl. rewrite Nat.sub_0_r.
    destruct (Nat.leb_spec (capacity_ v) (size_ v)).
    - destruct (Reserve v _) as [v1|f] eqn:Hres; [|done]. simpl.
      apply Reserve_counters in Hres as [Hsz _]. rewrite Hsz.
      by destruct (ArrayPtr.set (items_ v1) (size_ v) value).
    - unfold std_move_backward. rewrite Nat.sub_diag. simpl.
      by destruct (ArrayPtr.set (items_ v) (size_ v) value). }
  split; [done|]. intros Hv Hfull Hx.
  split; [|apply PushBack_element_full; [done | lia]].
  rewrite Hsame, PushBack_rvalue_Ok by done. simpl. eexists. split; [done|].
  pose proof (length_grown_block v Hv) as [Hlen _].
  pose proof (grown_capacity_gt v (proj1 Hv)) as Hgt.
  unfold live at 1. simpl. replace (size_ v + 1) with (S (size_ v)) by lia.
  rewrite take_S_insert by lia. by rewrite take_grown_block.
Qed.

(** X13.  With spare capacity, [Erase] at the position [Insert] returned
    undoes the insertion: size, capacity and live elements are those
    before. *)
Theorem Erase_undoes_Insert v (pos : nat) value :
  valid v → size_ v < capacity_ v → pos ≤ size_ v →
  ∃ it v1 v2, Insert v pos value = Ok (it, v1) ∧ Erase v1 it = Ok (it, v2)
    ∧ GetSize v2 = GetSize v ∧ GetCapacity v2 = GetCapacity v ∧ live v2 = live v.
Proof.
  intros Hv Hspare Hp.
  destruct (Insert_spare v pos value Hv Hspare Hp) as (v1 & Hins & Hsz & Hcap & Hsl & Hlive).
  assert (length (live v) = size_ v) as Hlen by by apply length_live, valid_size_slots.
  destruct Hv as [Hs Hc].
  destruct (Erase_live v1 pos) as (v2 & Her & Hsz2 & Hcap2 & Hsl2 & Hlive2); [lia..|].
  exists pos, v1, v2. unfold GetSize, GetCapacity.
  split_and!; [done | done | lia | congruence |].
  rewrite Hlive2, Hlive.
  rewrite take_app_length' by (rewrite length_take; lia).
  rewrite (cons_middle value), app_assoc.
  rewrite drop_app_length' by (rewrite length_app, length_take; simpl; lia).
  apply take_drop.
Qed.

(** X14.  [Insert] undoes [Erase], also on a full vector: erasing the
    element at an index and inserting it again at the position [Erase]
    returned gives back the live elements, the size and the capacity. *)
Theorem Insert_undoes_Erase v (pos : nat) value :
  valid v → items_ v !! pos = Some value → pos < size_ v →
  ∃ it v1 v2, Erase v pos = Ok (it, v1) ∧ Insert v1 it value = Ok (it, v2)
    ∧ GetSize v2 = GetSize v ∧ GetCapacity v2 = GetCapacity v ∧ live v2 = live v.
Proof.
  intros Hv Hx Hp. pose proof Hv as [Hs Hc].
  assert (length (live v) = size_ v) as Hlen by by apply length_live, valid_size_slots.
  destruct (Erase_live v pos) as (v1 & Her & Hsz & Hcap & Hsl & Hlive);
    [by apply valid_size_slots | done |].
  destruct (Insert_spare v1 pos value) as (v2 & Hins & Hsz2 & Hcap2 & Hsl2 & Hlive2).
  { unfold valid in *. lia. } { lia. } { lia. }
  exists pos, v1, v2. unfold GetSize, GetCapacity.
  split_and!; [done | done | lia | congruence |].
  rewrite Hlive2, Hlive.
  rewrite take_app_length' by (rewrite length_take; lia).
  rewrite drop_app_length' by (rewrite length_take; lia).
  rewrite <- (take_drop pos (live v)) at 3.
  f_equal. rewrite (drop_S (live v) value pos); [done|].
  by rewrite lookup_live.
Qed.

(** X15.  [Erase] of the last element is [PopBack]: no element moves and
    only the size changes. *)
Theorem Erase_last_is_PopBack v :
  0 < size_ v →
  Erase v (end_ v - 1) = (λ v', (end_ v - 1, v')) <$> PopBack v.
Proof.
  intros Hpos. unfold Erase, PopBack, begin_, end_, std_move_within. simpl.
  rewrite Nat.sub_0_r.
  destruct (Nat.ltb_spec (size_ v - 1) (size_ v)); [|lia].
  destruct (Nat.ltb_spec 0 (size_ v)); [|lia]. simpl.
  by replace (size_ v - (size_ v - 1 + 1)) with 0 by lia.
Qed.

(** X16.  The asserted preconditions: [PopBack] fails, with a contract
    violation, exactly on an empty vector; [Erase] at a position that is
    not an element, [Insert] beyond the end position and [operator[]] at
    an index that is not below the size fail with a contract violation,
    where checked access throws. *)
Theorem contract_violations v (pos : nat) value :
  (PopBack v = Fail ContractViolation ↔ size_ v = 0)
  ∧ (0 < size_ v → is_ok (PopBack v))
  ∧ (size_ v ≤ pos → Erase v pos = Fail ContractViolation)
  ∧ (size_ v < pos → Insert v pos value = Fail ContractViolation)
  ∧ (size_ v ≤ pos →
     subscript v pos = Fail ContractViolation ∧ At_const v pos = Fail IndexOutOfRange).
Proof.
  unfold PopBack, Erase, Insert, subscript, At_const, begin_, end_. simpl.
  destruct (Nat.ltb_spec 0 (size_ v)); simpl;
    (split_and!; [split; [done || lia | done || lia] | | | |]).
  all: try (intros; by eexists).
  all: try lia.
  all: intros Hle.
  all: try (destruct (Nat.ltb_spec pos (size_ v)); [lia | done]).
  all: try (destruct (Nat.leb_spec pos (size_ v)); [lia | done]).
  all: destruct (Nat.ltb_spec pos (size_ v)); [lia|];
       destruct (Nat.leb_spec (size_ v) pos); [done | lia].
Qed.
End insertion_properties.

Section ownership_properties.
Context {T : Type} `{DefaultValue T}.
Implicit Types (v other : SimpleVector T) (value : T) (st : store T).

(** X17.  Copy assignment from another object gives the destination the
    size and the live elements of the source and leaves the source and
    every other object as they were; assigning an object to itself changes
    nothing. *)
Theorem copy_assign_copies (this rhs : object) st :
  size_ (st rhs) ≤ slots (st rhs) →
  ∃ st', copy_assign this rhs st = Ok st'
    ∧ GetSize (st' this) = GetSize (st rhs)
    ∧ live (st' this) = live (st rhs)
    ∧ st' rhs = st rhs
    ∧ (∀ o, o ≠ this → st' o = st o)
    ∧ (this = rhs → st' = st).
Proof.
  intros Hs. destruct (decide (this = rhs)) as [->|Hne].
  { rewrite copy_assign_self. exists st. by split_and!. }
  rewrite copy_assign_distinct by done. rewrite SimpleVector_copy_Ok by done. simpl.
  eexists. split; [done|]. rewrite fn_lookup_insert.
  split_and!; [done | | by rewrite fn_lookup_insert_ne | | done].
  - assert (length (live (st rhs)) = size_ (st rhs)) as Hlen by by apply length_live.
    unfold live at 1. simpl. by rewrite take_ge by lia.
  - intros o Ho. by rewrite fn_lookup_insert_ne.
Qed.

(** X18.  A vector that was moved from, by the move constructor or by a
    move assignment to another object, can be used again: [PushBack] on it
    gives the one-element vector with capacity 1. *)
Theorem moved_from_vector_is_reusable other st (this rhs : object) value :
  PushBack (SimpleVector_move other).2 (Outside value)
  = Ok {| items_ := [value]; size_ := 1; capacity_ := 1 |}
  ∧ (this ≠ rhs →
     PushBack (move_assign this rhs st rhs) (Outside value)
     = Ok {| items_ := [value]; size_ := 1; capacity_ := 1 |}).
Proof.
  split; [done|]. intros Hne. rewrite move_assign_distinct by done.
  by rewrite fn_lookup_insert.
Qed.

(** X19.  [swap] exchanges block, size and capacity of two objects and
    touches no other object; swapping twice, or swapping an object with
    itself, leaves every object as it was. *)
Theorem swap_exchanges (this other : object) st :
  (this ≠ other →
   items_ (swap_objects this other st this) = items_ (st other)
   ∧ GetSize (swap_objects this other st this) = GetSize (st other)
   ∧ GetCapacity (swap_objects this other st this) = GetCapacity (st other)
   ∧ items_ (swap_objects this other st other) = items_ (st this)
   ∧ GetSize (swap_objects this other st other) = GetSize (st this)
   ∧ GetCapacity (swap_objects this other st other) = GetCapacity (st this)
   ∧ ∀ o, o ≠ this → o ≠ other → swap_objects this other st o = st o)
  ∧ (∀ o, swap_objects this other (swap_objects this other st) o = st o)
  ∧ swap_objects this this st = st.
Proof.
  split_and!; [| |apply swap_objects_self].
  - intros Hne. rewrite swap_objects_distinct by done.
    rewrite fn_lookup_insert, fn_lookup_insert_ne, fn_lookup_insert by done.
    split_and!; [done..|]. intros o Ho Ho'. by rewrite !fn_lookup_insert_ne.
  - intros o. destruct (decide (this = other)) as [->|Hne].
    { by rewrite !swap_objects_self. }
    rewrite !swap_objects_distinct by done. unfold insert, fn_insert.
    repeat (case_decide; simplify_eq; simpl); try done.
    + by destruct (st o).
    + by destruct (st o).
Qed.

(** X20.  Assignment through [operator[]] at an index below the size
    changes that element only: the index then reads the assigned value,
    every other index reads what it read before, and size and capacity are
    unchanged. *)
Theorem subscript_assignment v (index : nat) value :
  size_ v ≤ slots v → index < size_ v →
  ∃ v', assign_subscript v index value = Ok v'
    ∧ subscript v' index = Ok value
    ∧ (∀ j, j ≠ index → subscript v' j = subscript v j)
    ∧ GetSize v' = GetSize v ∧ GetCapacity v' = GetCapacity v.
Proof.
  intros Hs Hi. unfold slots in Hs. unfold assign_subscript, subscript.
  destruct (Nat.ltb_spec index (size_ v)); [|lia]. simpl.
  rewrite set_Ok by lia. simpl. eexists. split; [done|]. simpl.
  destruct (Nat.ltb_spec index (size_ v)); [|lia]. simpl.
  split_and!; [|  | done | done].
  - apply get_Ok, list_lookup_insert_eq. lia.
  - intros j Hj. unfold ArrayPtr.get. by rewrite list_lookup_insert_ne.
Qed.
End ownership_properties.

Section ordering_properties.
Context {T : Type} `{EqualityComparable T} `{LessThanComparable T}.
Implicit Types (a b v : SimpleVector T) (xs ys : list T).

Lemma op_eq_live a b :
  size_ a ≤ slots a → size_ b ≤ slots b →
  ∃ e, op_eq a b = Ok e
    ∧ (e = true ↔ size_ a = size_ b ∧ pairwise_equal (live a) (live b)).
Proof.
  intros Ha Hb. unfold slots in *. unfold op_eq, GetSize, std_equal, cbegin, cend. simpl.
  destruct (Nat.eqb_spec (size_ a) (size_ b)) as [Heq|Hne].
  - rewrite Nat.sub_0_r.
    destruct (equal_loop_spec (items_ a) 0 (size_ a) (items_ b) 0) as (e & -> & He);
      [lia..|].
    exists e. split; [done|]. rewrite He. unfold live. rewrite <- Heq. simpl.
    split; [by intros ?; split | by intros [_ ?]].
  - exists false. split; [done|]. split; [done | by intros [? _]].
Qed.

Lemma op_lt_live a b :
  size_ a ≤ slots a → size_ b ≤ slots b →
  ∃ l, op_lt a b = Ok l ∧ (l = true ↔ lexicographic_lt (live a) (live b)).
Proof.
  intros Ha Hb. unfold slots in *.
  unfold op_lt, std_lexicographical_compare, cbegin, cend. simpl. rewrite !Nat.sub_0_r.
  by apply (lexicographical_loop_spec (items_ a) 0 (size_ a) (items_ b) 0 (size_ b)).
Qed.

Lemma lexicographic_lt_asym xs ys :
  (∀ x y, elem_lt x y = true → elem_lt y x = false) →
  lexicographic_lt xs ys → ¬ lexicographic_lt ys xs.
Proof.
  intros Hasym Hlt. induction Hlt as [y ys|x xs y ys Hxy|x xs y ys Hxy Hyx Hlt IH].
  - inversion 1.
  - apply Hasym in Hxy as Hyx. inversion 1; simplify_eq; congruence.
  - inversion 1; simplify_eq; [congruence | by apply IH].
Qed.

Lemma lexicographic_lt_extension xs y ys :
  (∀ x, elem_lt x x = false) →
  lexicographic_lt xs (xs ++ y :: ys) ∧ ¬ lexicographic_lt (xs ++ y :: ys) xs.
Proof.
  intros Hirr. induction xs as [|x xs [IH1 IH2]]; simpl.
  - split; [constructor | inversion 1].
  - split; [by apply lex_tail|]. inversion 1; simplify_eq; [|done].
    rewrite Hirr in *. done.
Qed.

Lemma lexicographic_lt_unordered xs ys :
  length xs = length ys →
  (∀ i x y, xs !! i = Some x → ys !! i = Some y → elem_lt x y = false) →
  ¬ lexicographic_lt xs ys.
Proof.
  intros Hlen Hun Hlt. induction Hlt as [y ys|x xs y ys Hxy|x xs y ys Hxy Hyx Hlt IH].
  - done.
  - pose proof (Hun 0 x y eq_refl eq_refl). congruence.
  - apply IH; [simpl in Hlen; lia|].
    intros i x' y' Hx' Hy'. by apply (Hun (S i)).
Qed.

(** X21.  A vector is equal to itself and to its copy, in both orders,
    when the elements' [==] is reflexive. *)
Theorem equal_to_itself_and_to_copy `{DefaultValue T} v :
  (∀ x, elem_eq x x = true) → size_ v ≤ slots v →
  op_eq v v = Ok true
  ∧ ∃ c, SimpleVector_copy v = Ok c
      ∧ op_eq v c = Ok true ∧ op_eq c v = Ok true ∧ op_ne v c = Ok false.
Proof.
  intros Hrefl Hs.
  assert (∀ xs, pairwise_equal xs xs) as Hsame.
  { intros xs i x y Hx Hy. simplify_eq. apply Hrefl. }
  assert (length (live v) = size_ v) as Hlen by by apply length_live.
  assert (∀ a b, size_ a ≤ slots a → size_ b ≤ slots b → size_ a = size_ b →
                 live a = live b → op_eq a b = Ok true) as Heq.
  { intros a b Ha Hb Hsz Hlive. destruct (op_eq_live a b Ha Hb) as (e & -> & He).
    f_equal. apply He. rewrite Hlive. done. }
  split; [by apply Heq|].
  rewrite SimpleVector_copy_Ok by done. eexists. split; [done|].
  assert (live {| items_ := live v; size_ := size_ v; capacity_ := capacity_ v |}
          = live v) as Hlive.
  { unfold live at 1. simpl. by rewrite take_ge by lia. }
  assert (op_eq v {| items_ := live v; size_ := size_ v; capacity_ := capacity_ v |}
          = Ok true) as Hvc.
  { apply Heq; [done | unfold slots; simpl; lia | done | done]. }
  split_and!; [done | | unfold op_ne; by rewrite Hvc].
  apply Heq; [unfold slots; simpl; lia | done | done | done].
Qed.

(** X22.  [<] is a strict order on vectors when the elements' [<] is
    asymmetric: no vector is below itself, and [a < b] excludes [b < a],
    so it gives [a <= b] and denies [a > b] and [a >= b]. *)
Theorem less_than_is_strict a b :
  (∀ x y, elem_lt x y = true → elem_lt y x = false) →
  size_ a ≤ slots a → size_ b ≤ slots b →
  op_lt a a = Ok false ∧ op_le a a = Ok true ∧ op_ge a a = Ok true
  ∧ (op_lt a b = Ok true →
     op_lt b a = Ok false ∧ op_le a b = Ok true
     ∧ op_gt a b = Ok false ∧ op_ge a b = Ok false).
Proof.
  intros Hasym Ha Hb.
  assert (op_lt a a = Ok false) as Hirr.
  { destruct (op_lt_live a a Ha Ha) as ([|] & -> & Hl); [|done].
    pose proof (proj1 Hl eq_refl) as Hlt.
    by destruct (lexicographic_lt_asym _ _ Hasym Hlt). }
  unfold op_le, op_ge, op_gt. rewrite Hirr. split_and!; [done..|].
  intros Hab. destruct (op_lt_live a b Ha Hb) as (l & Hl & Hlt).
  destruct (op_lt_live b a Hb Ha) as ([|] & -> & Hgt).
  - rewrite Hab in Hl. simplify_eq.
    destruct (lexicographic_lt_asym _ _ Hasym (proj1 Hlt eq_refl)). by apply Hgt.
  - by rewrite Hab.
Qed.

(** X23.  A vector comes before the vector [PushBack] makes of it, and not
    after it, when no element is below itself. *)
Theorem vector_precedes_its_extension `{DefaultValue T} v (value : T) :
  (∀ x, elem_lt x x = false) → valid v →
  ∃ v', PushBack v (Outside value) = Ok v'
    ∧ op_lt v v' = Ok true ∧ op_lt v' v = Ok false.
Proof.
  intros Hirr Hv.
  destruct (PushBack_live v value Hv) as (v' & Hpush & Hv' & _ & _ & Hlive).
  exists v'. split; [done|].
  pose proof (valid_size_slots v Hv) as Hs. pose proof (valid_size_slots v' Hv') as Hs'.
  destruct (lexicographic_lt_extension (live v) value [] Hirr) as [Hlt Hnlt].
  rewrite <- Hlive in Hlt, Hnlt.
  destruct (op_lt_live v v' Hs Hs') as (l & -> & Hl).
  destruct (op_lt_live v' v Hs' Hs) as (g & -> & Hg).
  split; f_equal; [by apply Hl|]. destruct g; [|done]. by destruct Hnlt; apply Hg.
Qed.

(** X24.  Equal vectors are not ordered by [<], in either direction, when
    elements that compare equal are not ordered by the elements' [<]; so
    [a == b] gives [a <= b] and [a >= b]. *)
Theorem equal_vectors_are_unordered a b :
  (∀ x y, elem_eq x y = true → elem_lt x y = false ∧ elem_lt y x = false) →
  size_ a ≤ slots a → size_ b ≤ slots b →
  op_eq a b = Ok true →
  op_lt a b = Ok false ∧ op_gt a b = Ok false
  ∧ op_le a b = Ok true ∧ op_ge a b = Ok true.
Proof.
  intros Hcons Ha Hb Heq.
  destruct (op_eq_live a b Ha Hb) as (e & He & Hiff). rewrite Heq in He. simplify_eq.
  destruct (proj1 Hiff eq_refl) as [Hsz Hpair].
  assert (length (live a) = length (live b)) as Hlen.
  { rewrite !length_live by done. done. }
  assert (op_lt a b = Ok false) as Hab.
  { destruct (op_lt_live a b Ha Hb) as ([|] & -> & Hl); [|done].
    destruct (lexicographic_lt_unordered (live a) (live b)); [done | | by apply Hl].
    intros i x y Hx Hy. by destruct (Hcons x y (Hpair i x y Hx Hy)). }
  assert (op_lt b a = Ok false) as Hba.
  { destruct (op_lt_live b a Hb Ha) as ([|] & -> & Hl); [|done].
    destruct (lexicographic_lt_unordered (live b) (live a)); [done | | by apply Hl].
    intros i y x Hy Hx. by destruct (Hcons x y (Hpair i x y Hx Hy)). }
  unfold op_gt, op_le, op_ge. rewrite Hab, Hba. done.
Qed.
End ordering_properties.

(** * Instances of the further properties *)

Lemma PushBack_within_capacity_witness :
  valid sample ∧ size_ sample + length [7%Z] ≤ capacity_ sample
  ∧ ∃ w, PushBack_all sample [7%Z] = Ok w
      ∧ GetCapacity w = GetCapacity sample ∧ slots w = slots sample
      ∧ GetSize w = GetSize sample + length [7%Z] ∧ live w = live sample ++ [7%Z].
Proof.
  assert (valid sample) as Hv by (vm_compute; lia).
  assert (size_ sample + length [7%Z] ≤ capacity_ sample) as Hroom by (vm_compute; lia).
  split_and!; [exact Hv | exact Hroom |].
  apply (PushBack_within_capacity sample [7%Z] Hv Hroom).
Defined.

Lemma reserved_vector_takes_pushes_witness :
  length [1; 2]%Z ≤ 3
  ∧ IsEmpty (SimpleVector_reserve (ReserveProxy 3) (λ i, 77 + Z.of_nat i)%Z) = true
  ∧ GetCapacity (SimpleVector_reserve (ReserveProxy 3) (λ i, 77 + Z.of_nat i)%Z) = 3
  ∧ ∃ w, PushBack_all (SimpleVector_reserve (ReserveProxy 3) (λ i, 77 + Z.of_nat i)%Z)
                      [1; 2]%Z = Ok w
      ∧ GetSize w = length [1; 2]%Z ∧ GetCapacity w = 3 ∧ slots w = 3
      ∧ live w = [1; 2]%Z.
Proof.
  assert (length [1; 2]%Z ≤ 3) as Hn by (simpl; lia).
  split; [exact Hn|].
  apply (reserved_vector_takes_pushes 3 (λ i, 77 + Z.of_nat i)%Z [1; 2]%Z Hn).
Defined.

Lemma PushBack_capacity_bound_witness :
  [1; 2; 3]%Z ≠ []
  ∧ ∃ w, PushBack_all SimpleVector_default [1; 2; 3]%Z = Ok w
      ∧ GetSize w = length [1; 2; 3]%Z
      ∧ length [1; 2; 3]%Z ≤ GetCapacity w < 2 * length [1; 2; 3]%Z
      ∧ ∃ k, GetCapacity w = 2 ^ k.
Proof.
  assert ([1; 2; 3]%Z ≠ []) as Hne by discriminate.
  split; [exact Hne|]. apply (PushBack_capacity_bound [1; 2; 3]%Z Hne).
Defined.

Lemma Resize_truncates_or_pads_witness :
  valid sample
  ∧ ∃ v', Resize sample 5 = Ok v' ∧ GetSize v' = 5
      ∧ GetCapacity v' = max (GetCapacity sample) 5
      ∧ live v' = take 5 (live sample) ++ replicate (5 - size_ sample) Type_default.
Proof.
  assert (valid sample) as Hv by (vm_compute; lia).
  split; [exact Hv|]. apply (Resize_truncates_or_pads sample 5 Hv).
Defined.

Lemma Resize_shrink_then_grow_witness :
  valid sample ∧ 1 ≤ size_ sample ∧ 1 ≤ 3
  ∧ ∃ v1 v2, Resize sample 1 = Ok v1 ∧ Resize v1 3 = Ok v2
      ∧ live v2 = take 1 (live sample) ++ replicate (3 - 1) Type_default.
Proof.
  assert (valid sample) as Hv by (vm_compute; lia).
  assert (1 ≤ size_ sample) as Hk by (vm_compute; lia).
  assert (1 ≤ 3) as Hj by lia.
  split_and!; [exact Hv | exact Hk | exact Hj |].
  apply (Resize_shrink_then_grow sample 1 3 Hv Hk Hj).
Defined.

Lemma Reserve_keeps_elements_witness :
  valid sample
  ∧ ∃ v', Reserve sample 10 = Ok v'
      ∧ GetSize v' = GetSize sample ∧ live v' = live sample
      ∧ GetCapacity v' = max (GetCapacity sample) 10
      ∧ Reserve v' 10 = Ok v'.
Proof.
  assert (valid sample) as Hv by (vm_compute; lia).
  split; [exact Hv|]. apply (Reserve_keeps_elements sample 10 Hv).
Defined.

Lemma PopBack_undoes_PushBack_witness :
  valid sample_full
  ∧ ∃ v1 v2, PushBack sample_full (Outside 3%Z) = Ok v1 ∧ PopBack v1 = Ok v2
      ∧ GetSize v2 = GetSize sample_full ∧ live v2 = live sample_full
      ∧ GetCapacity v2 = GetCapacity v1.
Proof.
  assert (valid sample_full) as Hv by (vm_compute; lia).
  split; [exact Hv|]. apply (PopBack_undoes_PushBack sample_full 3%Z Hv).
Defined.

Lemma Insert_with_spare_capacity_witness :
  valid sample ∧ size_ sample < capacity_ sample ∧ 1 ≤ size_ sample
  ∧ ∃ v', Insert sample 1 9%Z = Ok (1, v')
      ∧ GetSize v' = GetSize sample + 1 ∧ GetCapacity v' = GetCapacity sample
      ∧ slots v' = slots sample
      ∧ items_ v' !! 1 = Some 9%Z
      ∧ (∀ i, i < 1 → items_ v' !! i = items_ sample !! i)
      ∧ (∀ i, 1 ≤ i → i < size_ sample → items_ v' !! (i + 1) = items_ sample !! i).
Proof.
  assert (valid sample) as Hv by (vm_compute; lia).
  assert (size_ sample < capacity_ sample) as Hspare by (vm_compute; lia).
  assert (1 ≤ size_ sample) as Hp by (vm_compute; lia).
  split_and!; [exact Hv | exact Hspare | exact Hp |].
  apply (Insert_with_spare_capacity sample 1 9%Z Hv Hspare Hp).
Defined.

Lemma Erase_undoes_Insert_witness :
  valid sample ∧ size_ sample < capacity_ sample ∧ 1 ≤ size_ sample
  ∧ ∃ it v1 v2, Insert sample 1 9%Z = Ok (it, v1) ∧ Erase v1 it = Ok (it, v2)
      ∧ GetSize v2 = GetSize sample ∧ GetCapacity v2 = GetCapacity sample
      ∧ live v2 = live sample.
Proof.
  assert (valid sample) as Hv by (vm_compute; lia).
  assert (size_ sample < capacity_ sample) as Hspare by (vm_compute; lia).
  assert (1 ≤ size_ sample) as Hp by (vm_compute; lia).
  split_and!; [exact Hv | exact Hspare | exact Hp |].
  apply (Erase_undoes_Insert sample 1 9%Z Hv Hspare Hp).
Defined.

Lemma Insert_undoes_Erase_witness :
  valid sample_full ∧ items_ sample_full !! 0 = Some 1%Z ∧ 0 < size_ sample_full
  ∧ ∃ it v1 v2, Erase sample_full 0 = Ok (it, v1) ∧ Insert v1 it 1%Z = Ok (it, v2)
      ∧ GetSize v2 = GetSize sample_full ∧ GetCapacity v2 = GetCapacity sample_full
      ∧ live v2 = live sample_full.
Proof.
  assert (valid sample_full) as Hv by (vm_compute; lia).
  assert (items_ sample_full !! 0 = Some 1%Z) as Hx by reflexivity.
  assert (0 < size_ sample_full) as Hp by (vm_compute; lia).
  split_and!; [exact Hv | exact Hx | exact Hp |].
  apply (Insert_undoes_Erase sample_full 0 1%Z Hv Hx Hp).
Defined.

Lemma Erase_last_is_PopBack_witness :
  0 < size_ sample
  ∧ Erase sample (end_ sample - 1) = (λ v', (end_ sample - 1, v')) <$> PopBack sample.
Proof.
  assert (0 < size_ sample) as Hpos by (vm_compute; lia).
  split; [exact Hpos|]. apply (Erase_last_is_PopBack sample Hpos).
Defined.

Lemma copy_assign_copies_witness :
  size_ (sample_store 0) ≤ slots (sample_store 0)
  ∧ ∃ st', copy_assign 1 0 sample_store = Ok st'
      ∧ GetSize (st' 1) = GetSize (sample_store 0)
      ∧ live (st' 1) = live (sample_store 0)
      ∧ st' 0 = sample_store 0
      ∧ (∀ o, o ≠ 1 → st' o = sample_store o)
      ∧ (1 = 0 → st' = sample_store).
Proof.
  assert (size_ (sample_store 0) ≤ slots (sample_store 0)) as Hs by (vm_compute; lia).
  split; [exact Hs|]. apply (copy_assign_copies 1 0 sample_store Hs).
Defined.

Lemma subscript_assignment_witness :
  size_ sample ≤ slots sample ∧ 1 < size_ sample
  ∧ ∃ v', assign_subscript sample 1 9%Z = Ok v'
      ∧ subscript v' 1 = Ok 9%Z
      ∧ (∀ j, j ≠ 1 → subscript v' j = subscript sample j)
      ∧ GetSize v' = GetSize sample ∧ GetCapacity v' = GetCapacity sample.
Proof.
  assert (size_ sample ≤ slots sample) as Hs by (vm_compute; lia).
  assert (1 < size_ sample) as Hi by (vm_compute; lia).
  split_and!; [exact Hs | exact Hi |].
  apply (subscript_assignment sample 1 9%Z Hs Hi).
Defined.

Lemma equal_to_itself_and_to_copy_witness :
  (∀ x : Z, elem_eq x x = true) ∧ size_ sample ≤ slots sample
  ∧ op_eq sample sample = Ok true
  ∧ ∃ c, SimpleVector_copy sample = Ok c
      ∧ op_eq sample c = Ok true ∧ op_eq c sample = Ok true
      ∧ op_ne sample c = Ok false.
Proof.
  assert (∀ x : Z, elem_eq x x = true) as Hrefl by (intros x; apply Z.eqb_refl).
  assert (size_ sample ≤ slots sample) as Hs by (vm_compute; lia).
  split_and!; [exact Hrefl | exact Hs | |];
    apply (equal_to_itself_and_to_copy sample Hrefl Hs).
Defined.

Lemma less_than_is_strict_witness :
  (∀ x y : Z, elem_lt x y = true → elem_lt y x = false)
  ∧ size_ sample_full ≤ slots sample_full ∧ size_ sample ≤ slots sample
  ∧ op_lt sample_full sample_full = Ok false
  ∧ op_le sample_full sample_full = Ok true
  ∧ op_ge sample_full sample_full = Ok true
  ∧ (op_lt sample_full sample = Ok true →
     op_lt sample sample_full = Ok false ∧ op_le sample_full sample = Ok true
     ∧ op_gt sample_full sample = Ok false ∧ op_ge sample_full sample = Ok false).
Proof.
  assert (∀ x y : Z, elem_lt x y = true → elem_lt y x = false) as Hasym.
  { intros x y Hxy. apply Z.ltb_lt in Hxy. apply Z.ltb_ge. lia. }
  assert (size_ sample_full ≤ slots sample_full) as Ha by (vm_compute; lia).
  assert (size_ sample ≤ slots sample) as Hb by (vm_compute; lia).
  destruct (less_than_is_strict sample_full sample Hasym Ha Hb) as (H1 & H2 & H3 & H4).
  split_and!; [exact Hasym | exact Ha | exact Hb | exact H1 | exact H2 | exact H3 |].
  exact H4.
Defined.

Lemma vector_precedes_its_extension_witness :
  (∀ x : Z, elem_lt x x = false) ∧ valid sample
  ∧ ∃ v', PushBack sample (Outside 0%Z) = Ok v'
      ∧ op_lt sample v' = Ok true ∧ op_lt v' sample = Ok false.
Proof.
  assert (∀ x : Z, elem_lt x x = false) as Hirr by (intros x; apply Z.ltb_irrefl).
  assert (valid sample) as Hv by (vm_compute; lia).
  split_and!; [exact Hirr | exact Hv |].
  apply (vector_precedes_its_extension sample 0%Z Hirr Hv).
Defined.

Lemma equal_vectors_are_unordered_witness :
  (∀ x y : Z, elem_eq x y = true → elem_lt x y = false ∧ elem_lt y x = false)
  ∧ size_ sample ≤ slots sample
  ∧ op_eq sample sample = Ok true
  ∧ op_lt sample sample = Ok false ∧ op_gt sample sample = Ok false
  ∧ op_le sample sample = Ok true ∧ op_ge sample sample = Ok true.
Proof.
  assert (∀ x y : Z, elem_eq x y = true → elem_lt x y = false ∧ elem_lt y x = false)
    as Hcons.
  { intros x y Hxy. apply Z.eqb_eq in Hxy. split; apply Z.ltb_ge; lia. }
  assert (size_ sample ≤ slots sample) as Hs by (vm_compute; lia).
  assert (op_eq sample sample = Ok true) as Heq by reflexivity.
  destruct (equal_vectors_are_unordered sample sample Hcons Hs Hs Heq)
    as (H1 & H2 & H3 & H4).
  split_and!; [exact Hcons | exact Hs | exact Heq | exact H1 | exact H2 | exact H3
               | exact H4].
Defined.
